(** * Structure synchronisation of translated documentation

    A shallow embedding of the two scripts of the repository,
    [sync_translations.py] (report mode) and [sync_fix.py] (fix mode),
    and the properties of their structural parser, their aligner and
    their path mapper.

    Text is modelled as a list of characters; a character is a code
    point below 256 ([ascii]).  The whitespace class is the one Python
    uses for [str.strip()], [str.isspace()] and the pattern [\s] on
    text; the digit class is the one of [\d]. *)

From Stdlib Require Import Ascii String Lia Arith.
From stdpp Require Import base list strings gmap.


(** ** Text primitives (Python [str] methods) *)

Module Text.

Abbreviation str := (list ascii).

(** A literal of the source. *)
Definition lit (s : string) : str := list_ascii_of_string s.
Arguments lit _%_string : simpl never.

Definition nl : ascii := "010"%char.

(** [c.isspace()] on the code points below 256: TAB, LF, VT, FF, CR,
    FS, GS, RS, US, SPACE, NEL and NBSP. *)
Definition isspace (c : ascii) : bool :=
  let n := nat_of_ascii c in
  ((9 <=? n) && (n <=? 13)) || ((28 <=? n) && (n <=? 32))
  || (n =? 133) || (n =? 160).

(** The class [\d] on the code points below 256. *)
Definition isdigit (c : ascii) : bool :=
  let n := nat_of_ascii c in (48 <=? n) && (n <=? 57).

(** The longest prefix whose characters satisfy [p], and the rest. *)
Fixpoint span (p : ascii -> bool) (s : str) : str * str :=
  match s with
  | [] => ([], [])
  | c :: s' =>
      if p c then let '(a, b) := span p s' in (c :: a, b) else ([], s)
  end.

Definition lstrip (s : str) : str := (span isspace s).2.
Definition rstrip (s : str) : str := reverse (lstrip (reverse s)).

(** [s.strip()] *)
Definition strip (s : str) : str := rstrip (lstrip s).

(** [s.startswith(p)] *)
Fixpoint startswith (p s : str) : bool :=
  match p, s with
  | [], _ => true
  | _ :: _, [] => false
  | a :: p', b :: s' => Ascii.eqb a b && startswith p' s'
  end.

(** [s.endswith(p)] *)
Definition endswith (p s : str) : bool :=
  startswith (reverse p) (reverse s).

(** [s.split('\n')]: never empty, one more piece than newlines. *)
Fixpoint split (s : str) : list str :=
  match s with
  | [] => [[]]
  | c :: s' =>
      if Ascii.eqb c nl then [] :: split s'
      else match split s' with
           | l :: ls => (c :: l) :: ls
           | [] => [[c]]
           end
  end.

(** ['\n'.join(ls)] *)
Fixpoint join (ls : list str) : str :=
  match ls with
  | [] => []
  | [l] => l
  | l :: ls' => l ++ nl :: join ls'
  end.

(** [s.replace('.mdx', '')]: every occurrence, left to right. *)
Fixpoint remove_mdx (s : str) : str :=
  match s with
  | "."%char :: "m"%char :: "d"%char :: "x"%char :: rest => remove_mdx rest
  | c :: s' => c :: remove_mdx s'
  | [] => []
  end.

(** [c * n] for a one-character string [c]. *)
Definition times (c : ascii) (n : nat) : str := replicate n c.

End Text.

Import Text.

(** ** The regular expressions of the parser

    Each function is [re.match] of one pattern of the source and
    returns the captured groups.  A greedy run of one character class
    is taken whole with [span] where giving characters back cannot help
    (the next atom of the pattern rejects every character of the run);
    the one place where Python backtracks, [\s+] before [(.+)$], is
    written out in [sp_text]. *)

Module Re.

(** [(.+)$] at the current position: the run of non-newline characters
    is taken whole (a shorter run is followed by a non-newline
    character, where [$] fails); [$] holds at the end of the text or
    before one final newline. *)
Definition text_end (s : str) : option str :=
  let '(t, r) := span (fun c => negb (Ascii.eqb c nl)) s in
  match t, r with
  | [], _ => None
  | _ :: _, [] => Some t
  | _ :: _, [c] => if Ascii.eqb c nl then Some t else None
  | _ :: _, _ => None
  end.

(** [\s+(.+)$] at the current position, greedy with backtracking:
    after one space character, first try to take more of them, and
    only when that fails let the text start here. *)
Fixpoint sp_text (s : str) : option str :=
  match s with
  | [] => None
  | c :: s' =>
      if isspace c then
        match sp_text s' with
        | Some t => Some t
        | None => text_end s'
        end
      else None
  end.

Definition is_hash (c : ascii) : bool := Ascii.eqb c "#"%char.

(** [^(#{1,6})\s+(.+)$]: level and text. *)
Definition heading (line : str) : option (nat * str) :=
  let '(h, r) := span is_hash line in
  if (1 <=? length h) && (length h <=? 6) then
    match sp_text r with
    | Some t => Some (length h, t)
    | None => None
    end
  else None.

(** [^(\s{0,})(\d+)\.\s+(.+)$] (the source writes the first group
    with a star): the three groups. *)
Definition numbered (line : str) : option (str * str * str) :=
  let '(ws, r) := span isspace line in
  let '(ds, r2) := span isdigit r in
  match ds, r2 with
  | _ :: _, c :: r3 =>
      if Ascii.eqb c "."%char then
        match sp_text r3 with
        | Some t => Some (ws, ds, t)
        | None => None
        end
      else None
  | _, _ => None
  end.

Definition is_bullet (c : ascii) : bool :=
  Ascii.eqb c "*"%char || Ascii.eqb c "-"%char || Ascii.eqb c "+"%char.

(** [^(\s{0,})([\*\-\+])\s+(.+)$] (the source writes the first group
    with a star): the three groups. *)
Definition bullet (line : str) : option (str * ascii * str) :=
  let '(ws, r) := span isspace line in
  match r with
  | c :: r2 =>
      if is_bullet c then
        match sp_text r2 with
        | Some t => Some (ws, c, t)
        | None => None
        end
      else None
  | [] => None
  end.

Definition is_rule (c : ascii) : bool :=
  Ascii.eqb c "*"%char || Ascii.eqb c "-"%char || Ascii.eqb c "_"%char.

(** [^[\*\-_]{3,}$] *)
Definition hr (s : str) : bool :=
  let '(g, r) := span is_rule s in
  (3 <=? length g) &&
  match r with
  | [] => true
  | [c] => Ascii.eqb c nl
  | _ => false
  end.

End Re.

(** ** Line records *)

(** The values of the ['type'] key. *)
Inductive kind :=
| k_code_block_start | k_code_block_end | k_code_block_content
| k_heading | k_numbered_list | k_bullet_list
| k_import | k_hr | k_text | k_other.

Global Instance kind_eq_dec : EqDecision kind.
Proof. solve_decision. Defined.

(** The records built by [analyze_structure]; every one carries its
    line number ['line'] and the raw line ['content']. *)
Inductive element :=
| ECodeStart (line : nat) (content lang : str)
| ECodeEnd (line : nat) (content : str)
| ECodeContent (line : nat) (content : str)
| EHeading (line level : nat) (text content : str)
| ENumbered (line indent : nat) (number text content : str)
| EBullet (line indent : nat) (bullet : ascii) (text content : str)
| EImport (line : nat) (content : str)
| EHr (line : nat) (content : str)
| EText (line : nat) (content : str).

Definition etype (e : element) : kind :=
  match e with
  | ECodeStart _ _ _ => k_code_block_start
  | ECodeEnd _ _ => k_code_block_end
  | ECodeContent _ _ => k_code_block_content
  | EHeading _ _ _ _ => k_heading
  | ENumbered _ _ _ _ _ => k_numbered_list
  | EBullet _ _ _ _ _ => k_bullet_list
  | EImport _ _ => k_import
  | EHr _ _ => k_hr
  | EText _ _ => k_text
  end.

Definition eline (e : element) : nat :=
  match e with
  | ECodeStart i _ _ | ECodeEnd i _ | ECodeContent i _
  | EHeading i _ _ _ | ENumbered i _ _ _ _ | EBullet i _ _ _ _
  | EImport i _ | EHr i _ | EText i _ => i
  end.

Definition econtent (e : element) : str :=
  match e with
  | ECodeStart _ c _ | ECodeEnd _ c | ECodeContent _ c
  | EHeading _ _ _ c | ENumbered _ _ _ _ c | EBullet _ _ _ _ c
  | EImport _ c | EHr _ c | EText _ c => c
  end.

(** [s.get('indent', 0)] *)
Definition eindent (e : element) : nat :=
  match e with
  | ENumbered _ n _ _ _ | EBullet _ n _ _ _ => n
  | _ => 0
  end.

(** The records built by [parse_line]; every one carries the raw line
    ['original']. *)
Inductive parsed :=
| PHeading (level : nat) (text original : str)
| PNumbered (indent : nat) (number text original : str)
| PBullet (indent : nat) (bullet : ascii) (text original : str)
| POther (original : str).

Definition ptype (p : parsed) : kind :=
  match p with
  | PHeading _ _ _ => k_heading
  | PNumbered _ _ _ _ => k_numbered_list
  | PBullet _ _ _ _ => k_bullet_list
  | POther _ => k_other
  end.

Definition original (p : parsed) : str :=
  match p with
  | PHeading _ _ o | PNumbered _ _ _ o | PBullet _ _ _ o | POther o => o
  end.

(** ** Code common to the two scripts *)

Module Common.

(** A path is the tuple of its segments ([Path(p).parts]); [str(Path( *parts))]
    is the inverse conversion. *)
Abbreviation path := (list (list ascii)).

Section GetEnPath.
(** The table [PATH_MAPPING] of the script. *)
Variable PATH_MAPPING : gmap str str.

(** The body of the loop of [get_en_path] for one segment. *)
Definition en_part (part : str) : str :=
  let part_name := remove_mdx part in
  match PATH_MAPPING !! part_name with
  | Some en_part =>
      if endswith (lit ".mdx") part then en_part ++ lit ".mdx" else en_part
  | None => part
  end.

Definition get_en_path (id_path : path) : path := map en_part id_path.
End GetEnPath.

(** The scan of [extract_frontmatter] from line 1 on: the loop state is
    ([frontmatter_lines], [body_start]); [i] is the index of the head of
    [rest].  Leaving the loop without [break] keeps [body_start]. *)
Fixpoint fm_scan (rest : list str) (i : nat)
    (frontmatter_lines : list str) (body_start : nat) : list str * nat :=
  match rest with
  | [] => (frontmatter_lines, body_start)
  | l :: rest' =>
      if decide (strip l = lit "---") then
        (frontmatter_lines ++ [lit "---"], i + 1)
      else fm_scan rest' (i + 1) (frontmatter_lines ++ [l]) body_start
  end.

(** [extract_frontmatter(content)]: (frontmatter, body). *)
Definition extract_frontmatter (content : str) : str * str :=
  let lines := split content in
  match lines with
  | [] => ([], content)
  | l0 :: rest =>
      if decide (strip l0 = lit "---") then
        let '(frontmatter_lines, body_start) :=
          fm_scan rest 1 [lit "---"] 1 in
        (join frontmatter_lines, join (drop body_start lines))
      else ([], content)
  end.

(** The file system: the decoded text of every regular file, by path.
    A path that holds a directory, or bytes that do not decode, has no
    counterpart here: the only read that fails in this model is the
    read of a path that is not there. *)
Abbreviation filesystem := (gmap (list (list ascii)) (list ascii)).

(** [p.relative_to(dir)]; [None] stands for the [ValueError]. *)
Fixpoint relative_to (p dir : path) : option path :=
  match dir, p with
  | [], _ => Some p
  | d :: dir', x :: p' => if decide (d = x) then relative_to p' dir' else None
  | _ :: _, [] => None
  end.

End Common.

(** ** Report mode: [sync_translations.py] *)

Module SyncTranslations.

Import Common.

Definition PATH_MAPPING : gmap str str :=
  list_to_map (map (fun '(a, b) => (lit a, lit b)) [
    ("menu-siswa", "student-menu");
    ("menu-wali", "guardian-menu");
    ("penyelesaian-masalah", "troubleshooting");
    ("pengenalan", "introduction");
    ("kebijakan-dan-keamanan", "policies-and-security");
    ("panduan-pengguna-baru", "new-user-guide");
    ("ujian", "exams");
    ("tugas", "assignments");
    ("nilai-ujian", "exam-results");
    ("biaya", "fees");
    ("laporan", "reports");
    ("ujian-online", "online-exams");
    ("ujian-offline", "offline-exams");
    ("ditugaskan", "assigned");
    ("dikumpulkan", "submitted");
    ("penugasan", "assigned");
    ("pengumpulan-tugas", "submission");
    ("tagihan", "bill-list");
    ("riwayat", "payment-history");
    ("ujian-daring", "online-exams");
    ("kehadiran-siswa", "student-attendance");
    ("kehadiran-anak", "child-attendance");
    ("jadwal-pelajaran-harian", "daily-class-schedule");
    ("jadwal-pelajaran-anak", "child-class-schedule");
    ("absen-mapel", "subject-attendance");
    ("ekstrakurikuler", "extracurricular");
    ("galeri", "gallery");
    ("hari-libur", "holidays");
    ("pengumuman", "announcements");
    ("profile-siswa", "student-profile");
    ("detail-wali", "guardian-details");
    ("guru", "teachers");
    ("mengajukan-izin-kehadiran", "submit-attendance-permit");
    ("pengerjaan-ujian-online", "taking-online-exams");
    ("hubungi-kami", "contact-us");
    ("keamanan", "security");
    ("kebijakan-privasi", "privacy-policy");
    ("syarat-dan-ketentuan-layanan", "terms-of-service");
    ("tentang-kami", "about-us");
    ("lupa-password", "forgot-password");
    ("masalah-user-tidak-bisa-login", "user-cannot-login");
    ("tampilan-eschool-mobile", "eschool-mobile-interface");
    ("gambaran-umum", "overview");
    ("login", "login")
  ]%string).

Definition get_en_path : path -> path := Common.get_en_path PATH_MAPPING.

(** The classification of a line outside a code block (the part of the
    loop body of [analyze_structure] after the two code-block tests). *)
Definition classify (i : nat) (line : str) : element :=
  match Re.heading line with
  | Some (level, text) => EHeading i level text line
  | None =>
  match Re.numbered line with
  | Some (indent, number, text) =>
      ENumbered i (length indent) number text line
  | None =>
  match Re.bullet line with
  | Some (indent, bullet, text) =>
      EBullet i (length indent) bullet text line
  | None =>
      if startswith (lit "import ") (strip line) then EImport i line
      else if Re.hr (strip line) then EHr i line
      else EText i line
  end end end.

(** [line.strip().startswith('```')] *)
Definition is_fence (line : str) : bool :=
  startswith (lit "```") (strip line).

(** The loop of [analyze_structure] over [enumerate(lines)], from index
    [i] on, with the flag [in_code_block]. *)
Fixpoint analyze_from (lines : list str) (i : nat) (in_code_block : bool)
    : list element :=
  match lines with
  | [] => []
  | line :: lines' =>
      if is_fence line then
        if negb in_code_block then
          ECodeStart i line (strip (drop 3 (strip line)))
            :: analyze_from lines' (S i) true
        else
          ECodeEnd i line :: analyze_from lines' (S i) false
      else if in_code_block then
        ECodeContent i line :: analyze_from lines' (S i) in_code_block
      else
        classify i line :: analyze_from lines' (S i) in_code_block
  end.

Definition analyze_structure (content : str) : list element :=
  analyze_from (split content) 0 false.

(** [id_h['level']]; only read on records of type heading. *)
Definition elevel (e : element) : nat :=
  match e with
  | EHeading _ level _ _ => level
  | _ => 0
  end.

Definition is_heading (e : element) : bool :=
  bool_decide (etype e = k_heading).

(** [s['type'] in ['numbered_list', 'bullet_list']] *)
Definition is_list (e : element) : bool :=
  bool_decide (etype e = k_numbered_list) || bool_decide (etype e = k_bullet_list).

(** The lines of a report, one constructor per format string of
    [generate_report]. *)
Inductive report_line :=
| RMissing (rel_path en_rel : path)
| RFile (rel_path : path)
| RHeadingsMismatch (id_n en_n : nat)
| RHeadingsOk (n : nat)
| RHeadingLevel (number id_level en_level : nat)
| RListsMismatch (id_n en_n : nat)
| RListsOk (n : nat)
| RIndentation (indent_mismatches : nat).

(** The loop over [enumerate(zip(id_headings, en_headings))], from
    index [i] on: the warnings appended to [report_lines]. *)
Fixpoint level_warnings (i : nat) (id_headings en_headings : list element)
    : list report_line :=
  match id_headings, en_headings with
  | id_h :: ids, en_h :: ens =>
      if decide (elevel id_h <> elevel en_h) then
        RHeadingLevel (i + 1) (elevel id_h) (elevel en_h)
          :: level_warnings (S i) ids ens
      else level_warnings (S i) ids ens
  | _, _ => []
  end.

(** The loop over [zip(id_lists, en_lists)]: the final value of
    [indent_mismatches]. *)
Fixpoint count_indent_mismatches (id_lists en_lists : list element) : nat :=
  match id_lists, en_lists with
  | id_l :: ids, en_l :: ens =>
      (if decide (eindent id_l <> eindent en_l) then 1 else 0)
      + count_indent_mismatches ids ens
  | _, _ => 0
  end.

(** The part of [generate_report] after the two bodies are extracted:
    the lines of the report and [has_issues]. *)
Definition compare_bodies (rel_path : path) (id_body en_body : str)
    : list report_line * bool :=
  let id_structure := analyze_structure id_body in
  let en_structure := analyze_structure en_body in
  let id_headings := filter (fun s => is_heading s = true) id_structure in
  let en_headings := filter (fun s => is_heading s = true) en_structure in
  let id_lists := filter (fun s => is_list s = true) id_structure in
  let en_lists := filter (fun s => is_list s = true) en_structure in
  let heads :=
    if decide (length id_headings <> length en_headings)
    then ([RHeadingsMismatch (length id_headings) (length en_headings)], true)
    else ([RHeadingsOk (length id_headings)], false) in
  let levels := level_warnings 0 id_headings en_headings in
  let lists :=
    if decide (length id_lists <> length en_lists)
    then ([RListsMismatch (length id_lists) (length en_lists)], true)
    else ([RListsOk (length id_lists)], false) in
  let indent_mismatches := count_indent_mismatches id_lists en_lists in
  let indents :=
    if 0 <? indent_mismatches then [RIndentation indent_mismatches] else [] in
  (RFile rel_path :: heads.1 ++ levels ++ lists.1 ++ indents,
   heads.2 || negb (bool_decide (levels = [])) || lists.2
   || (0 <? indent_mismatches)).

(** [generate_report]; [None] stands for an exception that leaves the
    function ([read_text] of a file that is not there). *)
Definition generate_report (fs : filesystem) (id_file en_file id_dir en_dir : path)
    : option (list report_line * bool) :=
  id_content ← fs !! id_file;
  if decide (fs !! en_file = None) then
    rel_path ← relative_to id_file id_dir;
    en_rel ← relative_to en_file en_dir;
    Some ([RMissing rel_path en_rel], true)
  else
    en_content ← fs !! en_file;
    let '(id_fm, id_body) := extract_frontmatter id_content in
    let '(en_fm, en_body) := extract_frontmatter en_content in
    rel_path ← relative_to id_file id_dir;
    Some (compare_bodies rel_path id_body en_body).

Record stats := {
  total : nat; matched : nat; missing : nat; mismatched : nat
}.

(** What the loop of [main] carries: the counters, [reports] and
    [files_with_issues]. *)
Record run := {
  run_stats : stats;
  reports : list (list report_line);
  files_with_issues : list path
}.

(** One iteration of the loop of [main] for [id_file]. *)
Definition main_step (fs : filesystem) (id_dir en_dir : path) (id_file : path)
    (r : run) : option run :=
  rel_path ← relative_to id_file id_dir;
  let en_rel_path := get_en_path rel_path in
  let en_file := en_dir ++ en_rel_path in
  rep ← generate_report fs id_file en_file id_dir en_dir;
  let report : list report_line := rep.1 in
  let has_issues : bool := rep.2 in
  let st := run_stats r in
  let reports' := reports r ++ [report] in
  if decide (fs !! en_file = None) then
    Some {| run_stats := {| total := total st; matched := matched st;
                            missing := missing st + 1;
                            mismatched := mismatched st |};
            reports := reports';
            files_with_issues := files_with_issues r ++ [rel_path] |}
  else if has_issues then
    Some {| run_stats := {| total := total st; matched := matched st;
                            missing := missing st;
                            mismatched := mismatched st + 1 |};
            reports := reports';
            files_with_issues := files_with_issues r ++ [rel_path] |}
  else
    Some {| run_stats := {| total := total st; matched := matched st + 1;
                            missing := missing st;
                            mismatched := mismatched st |};
            reports := reports';
            files_with_issues := files_with_issues r |}.

(** The loop of [main] over [id_files]. *)
Fixpoint main_loop (fs : filesystem) (id_dir en_dir : path) (id_files : list path)
    (r : run) : option run :=
  match id_files with
  | [] => Some r
  | id_file :: rest =>
      r' ← main_step fs id_dir en_dir id_file r;
      main_loop fs id_dir en_dir rest r'
  end.

(** [main]: [id_files] is the sorted result of [id_dir.rglob('*.mdx')],
    which the file system gives; the result is what [main] prints (the
    reports, the counters, the files that need attention). *)
Definition main (fs : filesystem) (base_dir : path) (id_files : list path)
    : option run :=
  let id_dir := base_dir ++ [lit "content"; lit "docs"; lit "id"] in
  let en_dir := base_dir ++ [lit "content"; lit "docs"; lit "en"] in
  main_loop fs id_dir en_dir id_files
    {| run_stats := {| total := length id_files; matched := 0;
                       missing := 0; mismatched := 0 |};
       reports := []; files_with_issues := [] |}.

End SyncTranslations.

(** ** Fix mode: [sync_fix.py] *)

Module SyncFix.

Import Common.

(** The table of [sync_fix.py]: the one of [sync_translations.py] and
    two more entries. *)
Definition PATH_MAPPING : gmap str str :=
  <[lit "pengaturan-personal" := lit "personal-settings"]>
  (<[lit "ubah-password" := lit "change-password"]>
   SyncTranslations.PATH_MAPPING).

Definition get_en_path : path -> path := Common.get_en_path PATH_MAPPING.

(** [parse_line(line)] *)
Definition parse_line (line : str) : parsed :=
  match Re.heading line with
  | Some (level, text) => PHeading level text line
  | None =>
  match Re.numbered line with
  | Some (indent, number, text) => PNumbered (length indent) number text line
  | None =>
  match Re.bullet line with
  | Some (indent, bullet, text) => PBullet (length indent) bullet text line
  | None => POther line
  end end end.

(** What the script prints, one constructor per format string. *)
Inductive event :=
| PrintSkip (name : str)
| PrintFix (en_level id_level : nat)
| PrintUpdated (name backup_name : str)
| PrintDryRun (name : str)
| PrintFile (rel_path : path)
| PrintOk
| PrintMode (dry_run : bool)
| PrintSummary (total updated skipped no_change : nat)
| PrintHowToApply.

(** The variables of the alignment loop of [sync_file], and the lines
    printed so far. *)
Record state := {
  id_idx : nat;
  en_idx : nat;
  new_en_lines : list str;
  changes_made : bool;
  printed : list event
}.

Definition init : state :=
  {| id_idx := 0; en_idx := 0; new_en_lines := []; changes_made := false;
     printed := [] |}.

(** The replacement lines built by the three fixing branches. *)
Definition heading_line (id_level : nat) (en_text : str) : str :=
  times "#" id_level ++ " "%char :: en_text.

Definition numbered_line (id_indent : nat) (en_number en_text : str) : str :=
  times " " id_indent ++ en_number ++ lit ". " ++ en_text.

Definition bullet_line (id_indent : nat) (en_bullet : ascii) (en_text : str)
    : str :=
  times " " id_indent ++ en_bullet :: " "%char :: en_text.

(** The body of the first [while] loop for the current pair of
    records. *)
Definition step (id_item en_item : parsed) (st : state) : state :=
  match id_item, en_item with
  | PHeading id_level _ _, PHeading en_level en_text en_original =>
      if decide (id_level <> en_level) then
        {| id_idx := id_idx st + 1; en_idx := en_idx st + 1;
           new_en_lines := new_en_lines st ++ [heading_line id_level en_text];
           changes_made := true;
           printed := printed st ++ [PrintFix en_level id_level] |}
      else
        {| id_idx := id_idx st + 1; en_idx := en_idx st + 1;
           new_en_lines := new_en_lines st ++ [en_original];
           changes_made := changes_made st;
           printed := printed st |}
  | PNumbered id_indent _ _ _, PNumbered en_indent en_number en_text en_original =>
      if decide (id_indent <> en_indent) then
        {| id_idx := id_idx st + 1; en_idx := en_idx st + 1;
           new_en_lines :=
             new_en_lines st ++ [numbered_line id_indent en_number en_text];
           changes_made := true;
           printed := printed st |}
      else
        {| id_idx := id_idx st + 1; en_idx := en_idx st + 1;
           new_en_lines := new_en_lines st ++ [en_original];
           changes_made := changes_made st;
           printed := printed st |}
  | PBullet id_indent _ _ _, PBullet en_indent en_bullet en_text en_original =>
      if decide (id_indent <> en_indent) then
        {| id_idx := id_idx st + 1; en_idx := en_idx st + 1;
           new_en_lines :=
             new_en_lines st ++ [bullet_line id_indent en_bullet en_text];
           changes_made := true;
           printed := printed st |}
      else
        {| id_idx := id_idx st + 1; en_idx := en_idx st + 1;
           new_en_lines := new_en_lines st ++ [en_original];
           changes_made := changes_made st;
           printed := printed st |}
  | _, _ =>
      {| id_idx :=
           if decide (ptype id_item = ptype en_item) then id_idx st + 1
           else id_idx st;
         en_idx := en_idx st + 1;
         new_en_lines := new_en_lines st ++ [original en_item];
         changes_made := changes_made st;
         printed := printed st |}
  end.

Section Loop.
Variables id_parsed en_parsed : list parsed.

(** [id_idx < len(id_parsed) and en_idx < len(en_parsed)] *)
Definition in_range (st : state) : bool :=
  (id_idx st <? length id_parsed) && (en_idx st <? length en_parsed).

(** One iteration: the two records are read at the cursors (both in
    range under [in_range]). *)
Definition iterate (st : state) : state :=
  match id_parsed !! id_idx st, en_parsed !! en_idx st with
  | Some id_item, Some en_item => step id_item en_item st
  | _, _ => st
  end.

(** The first [while] loop, run for at most [fuel] iterations. *)
Fixpoint while (fuel : nat) (st : state) : state :=
  match fuel with
  | 0 => st
  | S fuel' => if in_range st then while fuel' (iterate st) else st
  end.

(** The second [while] loop: one iteration copies the record at the
    target cursor. *)
Definition copy_one (st : state) : state :=
  match en_parsed !! en_idx st with
  | Some en_item =>
      {| id_idx := id_idx st; en_idx := en_idx st + 1;
         new_en_lines := new_en_lines st ++ [original en_item];
         changes_made := changes_made st; printed := printed st |}
  | None => st
  end.

Fixpoint copy_rest (fuel : nat) (st : state) : state :=
  match fuel with
  | 0 => st
  | S fuel' =>
      if en_idx st <? length en_parsed then copy_rest fuel' (copy_one st)
      else st
  end.

(** The two loops; every iteration moves the target cursor, so
    [length en_parsed] iterations are enough for each. *)
Definition align : state :=
  copy_rest (length en_parsed) (while (length en_parsed) init).
End Loop.

(** [p.name] *)
Definition name (p : path) : str := List.last p [].

(** [PurePath.suffix] of a file name: from the last dot on, when the
    dot is neither the first nor the last character. *)
Definition suffix_of (nm : str) : str :=
  let '(ext_rev, rest) :=
    span (fun c => negb (Ascii.eqb c "."%char)) (reverse nm) in
  match rest, ext_rev with
  | _ :: _ :: _, _ :: _ => "."%char :: reverse ext_rev
  | _, _ => []
  end.

(** [p.with_suffix(suffix)] *)
Definition with_suffix (p : path) (suffix : str) : path :=
  let nm := name p in
  removelast p ++ [take (length nm - length (suffix_of nm)) nm ++ suffix].

(** [sync_file]: the returned flag, the file system and the lines
    printed; [None] stands for an exception that leaves the function
    ([read_text] of a file that is not there). *)
Definition sync_file (fs : filesystem) (id_file en_file : path) (dry_run : bool)
    : option (bool * filesystem * list event) :=
  if decide (fs !! en_file = None) then
    Some (false, fs, [PrintSkip (name en_file)])
  else
    id_content ← fs !! id_file;
    en_content ← fs !! en_file;
    let '(id_fm, id_body) := extract_frontmatter id_content in
    let '(en_fm, en_body) := extract_frontmatter en_content in
    let id_lines := split id_body in
    let en_lines := split en_body in
    let id_parsed := map parse_line id_lines in
    let en_parsed := map parse_line en_lines in
    let st := align id_parsed en_parsed in
    if changes_made st then
      let new_content := en_fm ++ nl :: join (new_en_lines st) in
      if negb dry_run then
        let backup_path := with_suffix en_file (lit ".mdx.bak") in
        let fs1 := <[backup_path := en_content]> fs in
        let fs2 := <[en_file := new_content]> fs1 in
        Some (true, fs2,
              printed st ++ [PrintUpdated (name en_file) (name backup_path)])
      else
        Some (true, fs, printed st ++ [PrintDryRun (name en_file)])
    else Some (false, fs, printed st).

Record stats := {
  total : nat; updated : nat; skipped : nat; no_change : nat
}.

(** What the loop of [main] carries: the counters, the file system and
    the lines printed. *)
Record run := {
  run_stats : stats;
  run_fs : filesystem;
  run_out : list event
}.

(** One iteration of the loop of [main] for [id_file]. *)
Definition main_step (id_dir en_dir : path) (dry_run : bool) (id_file : path)
    (r : run) : option run :=
  rel_path ← relative_to id_file id_dir;
  let en_rel_path := get_en_path rel_path in
  let en_file := en_dir ++ en_rel_path in
  let st := run_stats r in
  res ← sync_file (run_fs r) id_file en_file dry_run;
  let flag : bool := res.1.1 in
  let fs' : filesystem := res.1.2 in
  let out := run_out r ++ [PrintFile rel_path] ++ res.2 in
  if flag then
    Some {| run_stats := {| total := total st + 1; updated := updated st + 1;
                            skipped := skipped st;
                            no_change := no_change st |};
            run_fs := fs'; run_out := out |}
  else if decide (fs' !! en_file = None) then
    Some {| run_stats := {| total := total st + 1; updated := updated st;
                            skipped := skipped st + 1;
                            no_change := no_change st |};
            run_fs := fs'; run_out := out |}
  else
    Some {| run_stats := {| total := total st + 1; updated := updated st;
                            skipped := skipped st;
                            no_change := no_change st + 1 |};
            run_fs := fs'; run_out := out ++ [PrintOk] |}.

(** The loop of [main] over [id_files]. *)
Fixpoint main_loop (id_dir en_dir : path) (dry_run : bool)
    (id_files : list path) (r : run) : option run :=
  match id_files with
  | [] => Some r
  | id_file :: rest =>
      r' ← main_step id_dir en_dir dry_run id_file r;
      main_loop id_dir en_dir dry_run rest r'
  end.

(** [main]: [argv] is [sys.argv]; [id_files] is the sorted result of
    [id_dir.rglob('*.mdx')], which the file system gives. *)
Definition main (fs : filesystem) (base_dir : path) (argv : list str)
    (id_files : list path) : option run :=
  let id_dir := base_dir ++ [lit "content"; lit "docs"; lit "id"] in
  let en_dir := base_dir ++ [lit "content"; lit "docs"; lit "en"] in
  let dry_run := negb (bool_decide (lit "--apply" ∈ argv)) in
  r ← main_loop id_dir en_dir dry_run id_files
        {| run_stats := {| total := 0; updated := 0; skipped := 0;
                           no_change := 0 |};
           run_fs := fs; run_out := [PrintMode dry_run] |};
  let st := run_stats r in
  let summary :=
    [PrintSummary (total st) (updated st) (skipped st) (no_change st)] in
  let hint :=
    if dry_run && (0 <? updated st) then [PrintHowToApply] else [] in
  Some {| run_stats := st; run_fs := run_fs r;
          run_out := run_out r ++ summary ++ hint |}.

End SyncFix.

(** ** Vocabulary of the properties *)

Module Props.

Import Common SyncFix.

(** The three kinds the aligner compares. *)
Definition comparable (k : kind) : bool :=
  bool_decide (k = k_heading) || bool_decide (k = k_numbered_list)
  || bool_decide (k = k_bullet_list).

(** A matched pair: same kind, and the kind is one of the three. *)
Definition matched_pair (s t : parsed) : bool :=
  bool_decide (ptype s = ptype t) && comparable (ptype s).

(** A matched pair agrees: same level (headings) or same indentation
    (list items); any other pair has nothing to agree on. *)
Definition agree (s t : parsed) : bool :=
  match s, t with
  | PHeading a _ _, PHeading b _ _ => a =? b
  | PNumbered a _ _ _, PNumbered b _ _ _ => a =? b
  | PBullet a _ _ _, PBullet b _ _ _ => a =? b
  | _, _ => true
  end.

(** Every pair the first loop visits from [st] on agrees. *)
Fixpoint aligned_from (id_parsed en_parsed : list parsed) (fuel : nat)
    (st : state) : bool :=
  match fuel with
  | 0 => true
  | S fuel' =>
      if in_range id_parsed en_parsed st then
        match id_parsed !! id_idx st, en_parsed !! en_idx st with
        | Some s, Some t =>
            agree s t
            && aligned_from id_parsed en_parsed fuel' (iterate id_parsed en_parsed st)
        | _, _ => true
        end
      else true
  end.

(** An aligned pair of documents: every matched pair of the traversal
    agrees. *)
Definition aligned (id_parsed en_parsed : list parsed) : bool :=
  aligned_from id_parsed en_parsed (length en_parsed) init.

(** Nothing changed so far: the lines written are the raw lines of the
    target records passed. *)
Definition untouched (en_parsed : list parsed) (st : state) : Prop :=
  changes_made st = false /\ printed st = []
  /\ new_en_lines st = map original (take (en_idx st) en_parsed).

(** The two loops of [sync_file] by recursion on the records that are
    left, from the state [st]; [walk_align] shows it is [align]. *)
Fixpoint walk (en_left id_left : list parsed) (st : state) : state :=
  match en_left with
  | [] => st
  | t :: en_left' =>
      match id_left with
      | [] =>
          walk en_left' []
            {| id_idx := id_idx st; en_idx := en_idx st + 1;
               new_en_lines := new_en_lines st ++ [original t];
               changes_made := changes_made st; printed := printed st |}
      | s :: id_left' =>
          let st' := step s t st in
          walk en_left'
            (if decide (id_idx st' = id_idx st) then id_left else id_left')
            st'
      end
  end.

(** The line the loop body appends for a pair of records. *)
Definition emitted (s t : parsed) : str :=
  List.last (new_en_lines (step s t init)) [].

(** The lines the two loops write, by recursion on the records that
    are left. *)
Fixpoint outs (en_left id_left : list parsed) : list str :=
  match en_left with
  | [] => []
  | t :: en_left' =>
      match id_left with
      | [] => original t :: outs en_left' []
      | s :: id_left' =>
          emitted s t
          :: outs en_left'
               (if decide (ptype s = ptype t) then id_left' else id_left)
      end
  end.

(** [aligned] by recursion on the records that are left. *)
Fixpoint agree_walk (en_left id_left : list parsed) : bool :=
  match en_left, id_left with
  | t :: en_left', s :: id_left' =>
      agree s t
      && agree_walk en_left'
           (if decide (ptype s = ptype t) then id_left' else id_left)
  | _, _ => true
  end.

(** What a record says apart from its level or indentation and its raw
    line: the kind, the number or bullet, and the text. *)
Definition marker_text (p : parsed) : parsed :=
  match p with
  | PHeading _ t _ => PHeading 0 t []
  | PNumbered _ n t _ => PNumbered 0 n t []
  | PBullet _ b t _ => PBullet 0 b t []
  | POther o => POther o
  end.

(** The level of a heading, the indentation of a list item. *)
Definition depth (p : parsed) : nat :=
  match p with
  | PHeading n _ _ | PNumbered n _ _ _ | PBullet n _ _ _ => n
  | POther _ => 0
  end.

(** The stem of a segment as the claim on the path mapper reads it: the
    segment without a final [.mdx]. *)
Definition stem (part : str) : str :=
  if endswith (lit ".mdx") part then take (length part - 4) part else part.

(** The mapping of one segment as the claim words it. *)
Definition en_part_claimed (table : gmap str str) (part : str) : str :=
  match table !! stem part with
  | Some en =>
      if endswith (lit ".mdx") part then en ++ lit ".mdx" else en
  | None => part
  end.


End Props.

(** ** Vocabulary of the further properties *)

Module Cover.

Import Common SyncTranslations SyncFix.

(** A record of report mode read as a record of fix mode: the three
    structural kinds keep their fields, every other kind is [other]. *)
Definition to_parsed (e : element) : parsed :=
  match e with
  | EHeading _ level t c => PHeading level t c
  | ENumbered _ indent number t c => PNumbered indent number t c
  | EBullet _ indent b t c => PBullet indent b t c
  | _ => POther (econtent e)
  end.

(** An odd number of fence lines: a code block is open after them. *)
Definition in_block (lines : list str) : bool :=
  Nat.odd (length (filter (fun l => is_fence l = true) lines)).

(** The record of line [k] when [open] tells whether a code block is
    open before it. *)
Definition record_at (open : bool) (k : nat) (line : str) : element :=
  if is_fence line then
    if open then ECodeEnd k line
    else ECodeStart k line (strip (drop 3 (strip line)))
  else if open then ECodeContent k line
  else classify k line.

(** The line the fixing branches build for a target record at the
    level or indentation [d]: the marker at [d], the number and period
    or the bullet, one space, the text. *)
Definition rendered (d : nat) (t : parsed) : str :=
  match t with
  | PHeading _ text _ => heading_line d text
  | PNumbered _ number text _ => numbered_line d number text
  | PBullet _ b text _ => bullet_line d b text
  | POther o => o
  end.

(** A line that is the target line with only its heading level
    altered: what follows the marker characters is the same. *)
Definition only_level_altered (target out : str) : Prop :=
  (span Re.is_hash out).2 = (span Re.is_hash target).2.

(** A line that is the target line with only its leading indentation
    altered: what follows the leading space characters is the same. *)
Definition only_indent_altered (target out : str) : Prop :=
  lstrip out = lstrip target.

(** The directory of the source tree and of the target tree under the
    directory of the script. *)
Definition id_dir_of (base_dir : path) : path :=
  base_dir ++ [lit "content"; lit "docs"; lit "id"].

Definition en_dir_of (base_dir : path) : path :=
  base_dir ++ [lit "content"; lit "docs"; lit "en"].

End Cover.

(** ** Properties *)

Import Common Props.

Section TextFacts.

Lemma split_nonempty s : split s <> [].
Proof.
  destruct s as [|c s]; simpl; [done|].
  destruct (Ascii.eqb c nl); [done|]. by destruct (split s).
Qed.

Lemma join_cons l ls : ls <> [] -> join (l :: ls) = l ++ nl :: join ls.
Proof. by destruct ls. Qed.

Lemma join_split s : join (split s) = s.
Proof.
  induction s as [|c s IH]; simpl; [done|].
  destruct (Ascii.eqb_spec c nl) as [->|Hc].
  - rewrite join_cons; [by rewrite IH | apply split_nonempty].
  - pose proof (split_nonempty s) as Hne. revert IH Hne.
    destruct (split s) as [|l ls]; [done|]. intros IH _.
    destruct ls as [|l' ls]; simpl in *; by rewrite <- IH.
Qed.

Lemma split_no_nl s : Forall (fun l => nl ∉ l) (split s).
Proof.
  induction s as [|c s IH]; simpl.
  - constructor; [apply not_elem_of_nil | constructor].
  - destruct (Ascii.eqb_spec c nl) as [->|Hc].
    + constructor; [apply not_elem_of_nil | done].
    + pose proof (split_nonempty s) as Hne. revert IH Hne.
      destruct (split s) as [|l ls]; [done|]. intros IH _.
      inversion IH; subst. constructor; [|done].
      rewrite not_elem_of_cons. split; [congruence | done].
Qed.

Lemma split_line l : nl ∉ l -> split l = [l].
Proof.
  induction l as [|c l IH]; simpl; [done|].
  rewrite not_elem_of_cons. intros [Hc Hl].
  destruct (Ascii.eqb_spec c nl) as [->|_]; [done|]. by rewrite IH.
Qed.

Lemma split_app_nl l s : nl ∉ l -> split (l ++ nl :: s) = l :: split s.
Proof.
  induction l as [|c l IH]; simpl.
  - by intros _.
  - rewrite not_elem_of_cons. intros [Hc Hl].
    destruct (Ascii.eqb_spec c nl) as [->|_]; [done|]. by rewrite IH.
Qed.

Lemma split_join ls :
  ls <> [] -> Forall (fun l => nl ∉ l) ls -> split (join ls) = ls.
Proof.
  induction ls as [|l ls IH]; [done|]. intros _ Hall.
  inversion Hall as [|? ? Hl Hls]; subst.
  destruct ls as [|l' ls]; [by apply split_line|].
  rewrite join_cons by done. rewrite split_app_nl by done.
  by rewrite IH.
Qed.

End TextFacts.

(** *** The parser keeps one record per line *)

Section ParserTotal.

Import SyncTranslations SyncFix.

Lemma classify_content i l : econtent (classify i l) = l.
Proof.
  unfold classify.
  destruct (Re.heading l) as [[? ?]|]; [done|].
  destruct (Re.numbered l) as [[[? ?] ?]|]; [done|].
  destruct (Re.bullet l) as [[[? ?] ?]|]; [done|].
  by repeat case_match.
Qed.

Lemma classify_line i l : eline (classify i l) = i.
Proof.
  unfold classify.
  destruct (Re.heading l) as [[? ?]|]; [done|].
  destruct (Re.numbered l) as [[[? ?] ?]|]; [done|].
  destruct (Re.bullet l) as [[[? ?] ?]|]; [done|].
  by repeat case_match.
Qed.

Lemma analyze_from_content lines : forall i b,
  map econtent (analyze_from lines i b) = lines.
Proof.
  induction lines as [|l lines IH]; intros i b; simpl; [done|].
  destruct (is_fence l); [destruct b|destruct b]; simpl;
    rewrite ?IH, ?classify_content; done.
Qed.

Lemma analyze_from_line lines : forall i b,
  map eline (analyze_from lines i b) = seq i (length lines).
Proof.
  induction lines as [|l lines IH]; intros i b; simpl; [done|].
  destruct (is_fence l); [destruct b|destruct b]; simpl;
    rewrite ?IH, ?classify_line; done.
Qed.

Lemma parse_line_original l : original (parse_line l) = l.
Proof.
  unfold parse_line.
  destruct (Re.heading l) as [[? ?]|]; [done|].
  destruct (Re.numbered l) as [[[? ?] ?]|]; [done|].
  by destruct (Re.bullet l) as [[[? ?] ?]|].
Qed.

Lemma map_original_parse lines : map original (map parse_line lines) = lines.
Proof.
  induction lines as [|l lines IH]; simpl; [done|].
  by rewrite parse_line_original, IH.
Qed.

(** C1. For every body of N lines both parsers return N records, one
    per line and in the order of the lines: the record at position i
    carries line i as its raw line (and, in report mode, the number i).
    Both parsers are total functions. *)
Theorem parsing_total_length_preserving (body : str) :
  let lines := split body in
  (length (analyze_structure body) = length lines
   /\ map econtent (analyze_structure body) = lines
   /\ map eline (analyze_structure body) = seq 0 (length lines))
  /\ (length (map parse_line lines) = length lines
      /\ map original (map parse_line lines) = lines).
Proof.
  intros lines. unfold analyze_structure. fold lines.
  pose proof (analyze_from_content lines 0 false) as Hc.
  repeat split.
  - by rewrite <- Hc at 2; rewrite length_map.
  - done.
  - apply analyze_from_line.
  - apply length_map.
  - apply map_original_parse.
Qed.

End ParserTotal.

(** *** Front matter without a closing delimiter *)

Section FrontMatter.

Lemma fm_scan_unclosed rest : forall i acc body_start,
  Forall (fun l => strip l <> lit "---") rest ->
  fm_scan rest i acc body_start = (acc ++ rest, body_start).
Proof.
  induction rest as [|l rest IH]; intros i acc bs Hall; simpl.
  - by rewrite app_nil_r.
  - inversion Hall as [|? ? Hl Hrest]; subst.
    destruct (decide (strip l = lit "---")) as [E|_]; [done|].
    rewrite IH by done. by rewrite <- app_assoc.
Qed.

(** Without a closing delimiter the front matter is the whole document
    (its first line written as three hyphens), and the body is the
    document from its second line on. *)
Lemma extract_frontmatter_unclosed content l0 rest :
  split content = l0 :: rest ->
  strip l0 = lit "---" ->
  Forall (fun l => strip l <> lit "---") rest ->
  extract_frontmatter content = (join (lit "---" :: rest), join rest).
Proof.
  intros Hs H0 Hrest. unfold extract_frontmatter. rewrite Hs.
  destruct (decide (strip l0 = lit "---")) as [_|]; [|done].
  by rewrite fm_scan_unclosed.
Qed.

(** C6. On the three-line document [---], [title: Login], [# Login],
    which opens a front-matter block and never closes it, the body
    returned is not empty: it is the document from its second line
    on, which the front matter returned holds as well. *)
Theorem unclosed_front_matter_body_not_empty :
  let doc := join [lit "---"; lit "title: Login"; lit "# Login"] in
  extract_frontmatter doc = (doc, join [lit "title: Login"; lit "# Login"])
  /\ (extract_frontmatter doc).2 <> [].
Proof. vm_compute. split; [reflexivity | discriminate]. Qed.

End FrontMatter.

(** *** The path mapper *)

Section PathMapper.

(** Where deleting every [.mdx] of a segment leaves its stem, the
    segment is mapped as the claim words it. *)
Lemma en_part_as_claimed (table : gmap str str) (part : str) :
  remove_mdx part = stem part ->
  en_part table part = en_part_claimed table part.
Proof. intros E. unfold en_part, en_part_claimed. by rewrite E. Qed.

Lemma get_en_path_length (table : gmap str str) (p : path) :
  length (get_en_path table p) = length p.
Proof. apply length_map. Qed.

(** C9. The file name [login.mdx.mdx] has the stem [login.mdx], which
    neither table holds, so the segment should pass through unchanged;
    both scripts delete every [.mdx] of the name, find [login] in the
    table and return [login.mdx]. *)
Theorem get_en_path_deletes_inner_mdx :
  let part := lit "login.mdx.mdx" in
  stem part = lit "login.mdx"
  /\ SyncTranslations.PATH_MAPPING !! stem part = None
  /\ SyncFix.PATH_MAPPING !! stem part = None
  /\ en_part_claimed SyncFix.PATH_MAPPING part = part
  /\ SyncTranslations.get_en_path [part] = [lit "login.mdx"]
  /\ SyncFix.get_en_path [part] = [lit "login.mdx"].
Proof. vm_compute. repeat split; reflexivity. Qed.

End PathMapper.

(** *** Code fences *)

Section Fences.

Import SyncTranslations SyncFix.

Lemma analyze_inside_fence (mid rest : list str) : forall j,
  Forall (fun l => is_fence l = false) mid ->
  analyze_from (mid ++ rest) j true
  = imap (fun k l => ECodeContent (j + k) l) mid
    ++ analyze_from rest (j + length mid) true.
Proof.
  induction mid as [|l mid IH]; intros j Hmid; simpl.
  - by rewrite Nat.add_0_r.
  - inversion Hmid as [|? ? Hl Hmid']; subst.
    rewrite Hl, Nat.add_0_r. f_equal.
    rewrite IH by done. f_equal.
    + apply imap_ext. intros k x _. simpl. f_equal. lia.
    + f_equal. lia.
Qed.

(** Report mode: from an opening fence on, every line up to the next
    fence line is fence content, whatever its shape. *)
Lemma report_mode_fence_opaque (opening : str) (mid rest : list str) (i : nat) :
  is_fence opening = true ->
  Forall (fun l => is_fence l = false) mid ->
  analyze_from (opening :: mid ++ rest) i false
  = ECodeStart i opening (strip (drop 3 (strip opening)))
    :: imap (fun k l => ECodeContent (S i + k) l) mid
    ++ analyze_from rest (S i + length mid) true.
Proof.
  intros Ho Hmid. cbn [analyze_from]. rewrite Ho. cbn [negb]. f_equal.
  by apply analyze_inside_fence.
Qed.

(** C2. In the target body [```], [# note], [```] report mode
    classifies the middle line as fence content; fix mode, whose
    parser keeps no fence state, classifies it as a heading, and
    against the source body [```], [## catatan], [```] rewrites it. *)
Theorem fix_mode_parses_inside_fence :
  let id_body := join [lit "```"; lit "## catatan"; lit "```"] in
  let en_body := join [lit "```"; lit "# note"; lit "```"] in
  map etype (analyze_structure en_body)
    = [k_code_block_start; k_code_block_content; k_code_block_end]
  /\ map ptype (map parse_line (split en_body)) = [k_other; k_heading; k_other]
  /\ new_en_lines (align (map parse_line (split id_body))
                         (map parse_line (split en_body)))
     = [lit "```"; lit "## note"; lit "```"].
Proof. vm_compute. repeat split; reflexivity. Qed.

End Fences.

(** *** The alignment loops of fix mode *)

Section Alignment.

Import SyncFix.

Lemma step_en_idx s t st : en_idx (step s t st) = en_idx st + 1.
Proof. destruct s, t; simpl; by repeat case_decide. Qed.

Lemma step_id_idx s t st :
  id_idx (step s t st) = id_idx st \/ id_idx (step s t st) = id_idx st + 1.
Proof. destruct s, t; simpl; repeat case_decide; auto. Qed.

Lemma step_appends s t st :
  exists l, new_en_lines (step s t st) = new_en_lines st ++ [l].
Proof. destruct s, t; simpl; repeat case_decide; eauto. Qed.

(** On a pair that is not a matched pair the step is the last branch
    of the loop body. *)
Lemma step_unmatched s t st :
  matched_pair s t = false ->
  step s t st =
    {| id_idx := if decide (ptype s = ptype t) then id_idx st + 1
                 else id_idx st;
       en_idx := en_idx st + 1;
       new_en_lines := new_en_lines st ++ [original t];
       changes_made := changes_made st;
       printed := printed st |}.
Proof. destruct s, t; simpl; try done; discriminate. Qed.

(** On a pair that agrees the step copies the target line and changes
    neither the flag nor the output. *)
Lemma step_agree s t st :
  agree s t = true ->
  new_en_lines (step s t st) = new_en_lines st ++ [original t]
  /\ changes_made (step s t st) = changes_made st
  /\ printed (step s t st) = printed st.
Proof.
  destruct s, t; simpl; try done; intros E%Nat.eqb_eq; subst;
    by case_decide.
Qed.

Lemma agree_of_depth s t :
  (matched_pair s t = true -> depth t = depth s) -> agree s t = true.
Proof.
  destruct s, t; simpl; try done; intros H; apply Nat.eqb_eq;
    symmetry; by apply H.
Qed.

Variables id_parsed en_parsed : list parsed.

Lemma in_range_lookup st :
  in_range id_parsed en_parsed st = true ->
  exists s t, id_parsed !! id_idx st = Some s /\ en_parsed !! en_idx st = Some t.
Proof.
  unfold in_range. rewrite andb_true_iff, !Nat.ltb_lt. intros [Hi He].
  destruct (lookup_lt_is_Some_2 _ _ Hi) as [s Hs].
  destruct (lookup_lt_is_Some_2 _ _ He) as [t Ht]. eauto.
Qed.

Lemma iterate_step st s t :
  id_parsed !! id_idx st = Some s -> en_parsed !! en_idx st = Some t ->
  iterate id_parsed en_parsed st = step s t st.
Proof. unfold iterate. by intros -> ->. Qed.

(** The rule of the two loops: a property of the initial state that
    every iteration of either loop keeps holds of the final state. *)
Lemma align_rule (P : state -> Prop) :
  P init ->
  (forall st s t, P st ->
     id_parsed !! id_idx st = Some s -> en_parsed !! en_idx st = Some t ->
     P (step s t st)) ->
  (forall st, P st -> en_idx st < length en_parsed ->
     P (copy_one en_parsed st)) ->
  P (align id_parsed en_parsed).
Proof.
  intros H0 Hstep Hcopy. unfold align.
  assert (forall fuel st, P st -> P (while id_parsed en_parsed fuel st)) as Hw.
  { induction fuel as [|fuel IH]; intros st Hst; simpl; [done|].
    destruct (in_range id_parsed en_parsed st) eqn:Hr; [|done].
    destruct (in_range_lookup _ Hr) as (s & t & Hs & Ht).
    apply IH. rewrite (iterate_step _ _ _ Hs Ht). by eapply Hstep. }
  assert (forall fuel st, P st -> P (copy_rest en_parsed fuel st)) as Hc.
  { induction fuel as [|fuel IH]; intros st Hst; simpl; [done|].
    destruct (en_idx st <? length en_parsed) eqn:Hr; [|done].
    apply IH, Hcopy; [done|]. by apply Nat.ltb_lt. }
  apply Hc, Hw, H0.
Qed.

Lemma copy_one_en_idx st :
  en_idx st < length en_parsed -> en_idx (copy_one en_parsed st) = en_idx st + 1.
Proof.
  intros H. unfold copy_one.
  by destruct (lookup_lt_is_Some_2 _ _ H) as [t ->].
Qed.

(** The first loop has left its condition within the iterations it is
    given. *)
Lemma while_exits : forall fuel st,
  length en_parsed - en_idx st <= fuel ->
  in_range id_parsed en_parsed (while id_parsed en_parsed fuel st) = false.
Proof.
  induction fuel as [|fuel IH]; intros st Hf; simpl.
  - unfold in_range. apply andb_false_iff. right. apply Nat.ltb_ge. lia.
  - destruct (in_range id_parsed en_parsed st) eqn:Hr; [|done].
    destruct (in_range_lookup _ Hr) as (s & t & Hs & Ht).
    apply IH. rewrite (iterate_step _ _ _ Hs Ht), step_en_idx. lia.
Qed.

(** So has the second. *)
Lemma copy_rest_exits : forall fuel st,
  length en_parsed - en_idx st <= fuel ->
  length en_parsed <= en_idx (copy_rest en_parsed fuel st).
Proof.
  induction fuel as [|fuel IH]; intros st Hf; simpl; [lia|].
  destruct (en_idx st <? length en_parsed) eqn:Hr.
  - apply Nat.ltb_lt in Hr. apply IH. rewrite copy_one_en_idx by done. lia.
  - by apply Nat.ltb_ge in Hr.
Qed.

Lemma align_en_idx : en_idx (align id_parsed en_parsed) = length en_parsed.
Proof.
  apply Nat.le_antisymm.
  - apply (align_rule (fun st => en_idx st <= length en_parsed)).
    + simpl. lia.
    + intros st s t _ _ Ht%lookup_lt_Some. rewrite step_en_idx. lia.
    + intros st _ Hlt. rewrite copy_one_en_idx by done. lia.
  - unfold align. apply copy_rest_exits. simpl. lia.
Qed.

(** The second loop appends the raw lines of the records from the
    target cursor on. *)
Lemma copy_rest_lines : forall fuel st,
  length en_parsed - en_idx st <= fuel ->
  new_en_lines (copy_rest en_parsed fuel st)
  = new_en_lines st ++ map original (drop (en_idx st) en_parsed).
Proof.
  induction fuel as [|fuel IH]; intros st Hf; simpl.
  - rewrite drop_ge by lia. by rewrite app_nil_r.
  - destruct (en_idx st <? length en_parsed) eqn:Hr.
    + apply Nat.ltb_lt in Hr.
      destruct (lookup_lt_is_Some_2 _ _ Hr) as [t Ht].
      rewrite IH by (rewrite copy_one_en_idx by done; lia).
      rewrite copy_one_en_idx by done.
      unfold copy_one. rewrite Ht. simpl.
      rewrite (drop_S _ _ _ Ht). simpl.
      rewrite <- app_assoc. simpl. by rewrite Nat.add_1_r.
    + apply Nat.ltb_ge in Hr. rewrite drop_ge by lia. by rewrite app_nil_r.
Qed.

End Alignment.

Section AlignmentClaims.

Import SyncFix.

(** C3. At a step of the first loop whose current pair is not a
    matched pair (the kinds differ, or the shared kind is none of
    heading, numbered item, bullet item), the target line is appended
    unchanged and the target cursor moves by one; the change flag and
    the output stay; the source cursor moves by one exactly when the
    two records have the same kind, which is then not a comparable
    kind, and stays otherwise. *)
Theorem unmatched_pair_copies_target
    (id_parsed en_parsed : list parsed) (st : state) (s t : parsed) :
  id_parsed !! id_idx st = Some s ->
  en_parsed !! en_idx st = Some t ->
  matched_pair s t = false ->
  let st' := iterate id_parsed en_parsed st in
  new_en_lines st' = new_en_lines st ++ [original t]
  /\ en_idx st' = en_idx st + 1
  /\ changes_made st' = changes_made st
  /\ printed st' = printed st
  /\ (id_idx st' = id_idx st + 1
      <-> ptype s = ptype t /\ comparable (ptype s) = false)
  /\ (id_idx st' = id_idx st <-> ptype s <> ptype t).
Proof.
  intros Hs Ht Hm st'. subst st'.
  rewrite (iterate_step _ _ _ _ _ Hs Ht), (step_unmatched _ _ _ Hm). simpl.
  assert (ptype s = ptype t -> comparable (ptype s) = false) as Hnc.
  { intros E. unfold matched_pair in Hm.
    apply andb_false_iff in Hm as [Hm|Hm]; [|done].
    by apply bool_decide_eq_false in Hm. }
  split_and!; try done.
  - split.
    + case_decide; [auto | lia].
    + intros [E _]. by rewrite decide_True.
  - split.
    + case_decide; [lia | done].
    + intros Hne. by rewrite decide_False.
Qed.

End AlignmentClaims.

(** *** Documents that are already aligned *)

Section Idempotence.

Import SyncFix.

Variables id_parsed en_parsed : list parsed.

Lemma while_untouched : forall fuel st,
  aligned_from id_parsed en_parsed fuel st = true ->
  untouched en_parsed st ->
  untouched en_parsed (while id_parsed en_parsed fuel st).
Proof.
  induction fuel as [|fuel IH]; intros st Hal Hst; simpl in *; [done|].
  destruct (in_range id_parsed en_parsed st) eqn:Hr; [|done].
  destruct (in_range_lookup _ _ _ Hr) as (s & t & Hs & Ht).
  rewrite Hs, Ht in Hal. apply andb_true_iff in Hal as [Hag Hal].
  apply IH; [done|].
  rewrite (iterate_step _ _ _ _ _ Hs Ht).
  destruct Hst as (Hc & Hp & Hl).
  destruct (step_agree s t st Hag) as (Hl' & Hc' & Hp').
  unfold untouched. rewrite Hl', Hc', Hp', step_en_idx, Hl.
  split_and!; [done..|].
  rewrite Nat.add_1_r, (take_S_r _ _ _ Ht), map_app. done.
Qed.

Lemma copy_rest_frame : forall fuel st,
  changes_made (copy_rest en_parsed fuel st) = changes_made st
  /\ printed (copy_rest en_parsed fuel st) = printed st.
Proof.
  induction fuel as [|fuel IH]; intros st; simpl; [done|].
  destruct (en_idx st <? length en_parsed); [|done].
  destruct (IH (copy_one en_parsed st)) as [-> ->].
  unfold copy_one. by destruct (en_parsed !! en_idx st).
Qed.

Lemma aligned_untouched :
  aligned id_parsed en_parsed = true ->
  new_en_lines (align id_parsed en_parsed) = map original en_parsed
  /\ changes_made (align id_parsed en_parsed) = false
  /\ printed (align id_parsed en_parsed) = [].
Proof.
  intros Hal. unfold aligned in Hal.
  assert (untouched en_parsed init) as H0 by done.
  destruct (while_untouched _ _ Hal H0) as (Hc & Hp & Hl).
  unfold align.
  destruct (copy_rest_frame (length en_parsed)
              (while id_parsed en_parsed (length en_parsed) init)) as [-> ->].
  split_and!; [|done..].
  rewrite copy_rest_lines by lia. rewrite Hl, <- map_app.
  by rewrite take_drop.
Qed.

End Idempotence.

Section FileLevel.

Import SyncFix.

(** C5. When every matched pair of the traversal of a source and a
    target document already agrees on its level or indentation, the
    lines fix mode produces are the lines of the target body, no
    change is flagged, and [sync_file] prints nothing, returns the
    no-change result and leaves the file system as it was: no backup,
    no write. *)
Theorem aligned_pair_is_left_unchanged
    (fs : filesystem) (id_file en_file : path) (dry_run : bool)
    (id_content en_content : str) :
  fs !! id_file = Some id_content ->
  fs !! en_file = Some en_content ->
  let id_parsed := map parse_line (split (extract_frontmatter id_content).2) in
  let en_parsed := map parse_line (split (extract_frontmatter en_content).2) in
  aligned id_parsed en_parsed = true ->
  new_en_lines (align id_parsed en_parsed)
    = split (extract_frontmatter en_content).2
  /\ changes_made (align id_parsed en_parsed) = false
  /\ sync_file fs id_file en_file dry_run = Some (false, fs, []).
Proof.
  intros Hid Hen id_parsed en_parsed Hal.
  destruct (aligned_untouched _ _ Hal) as (Hl & Hc & Hp).
  split_and!; [|done|].
  - rewrite Hl. apply map_original_parse.
  - unfold sync_file. rewrite Hid, Hen. simpl.
    subst id_parsed en_parsed.
    destruct (extract_frontmatter id_content) as [id_fm id_body].
    destruct (extract_frontmatter en_content) as [en_fm en_body].
    simpl in *. by rewrite Hc, Hp.
Qed.

Lemma relative_to_app (dir rel : path) : relative_to (dir ++ rel) dir = Some rel.
Proof.
  induction dir as [|d dir IH]; simpl; [by destruct rel|].
  by rewrite decide_True.
Qed.

(** C8. A source file whose mapped target file is not there: fix mode
    prints the skip line, returns the no-change result and leaves the
    file system as it was, its loop counts the file as skipped and
    goes on with the files that follow; report mode returns the
    missing-file report with the issue flag, its loop counts the file
    as missing, lists it, and goes on with the files that follow. *)
Theorem missing_target_is_skipped
    (id_dir en_dir rel : path) (id_content : str)
    (rest_fix rest_report : list path) (dry_run : bool)
    (fs : filesystem) (rf : SyncFix.run) (rr : SyncTranslations.run) :
  let id_file := id_dir ++ rel in
  let en_fix := en_dir ++ SyncFix.get_en_path rel in
  let en_report := en_dir ++ SyncTranslations.get_en_path rel in
  run_fs rf !! en_fix = None ->
  fs !! id_file = Some id_content ->
  fs !! en_report = None ->
  (sync_file (run_fs rf) id_file en_fix dry_run
     = Some (false, run_fs rf, [PrintSkip (name en_fix)])
   /\ SyncFix.main_loop id_dir en_dir dry_run (id_file :: rest_fix) rf
      = SyncFix.main_loop id_dir en_dir dry_run rest_fix
          {| run_stats :=
               {| total := total (run_stats rf) + 1;
                  updated := updated (run_stats rf);
                  skipped := skipped (run_stats rf) + 1;
                  no_change := no_change (run_stats rf) |};
             run_fs := run_fs rf;
             run_out := run_out rf
                        ++ [PrintFile rel; PrintSkip (name en_fix)] |})
  /\ (SyncTranslations.generate_report fs id_file en_report id_dir en_dir
        = Some ([SyncTranslations.RMissing rel
                   (SyncTranslations.get_en_path rel)], true)
      /\ SyncTranslations.main_loop fs id_dir en_dir
           (id_file :: rest_report) rr
         = SyncTranslations.main_loop fs id_dir en_dir rest_report
             {| SyncTranslations.run_stats :=
                  {| SyncTranslations.total :=
                       SyncTranslations.total (SyncTranslations.run_stats rr);
                     SyncTranslations.matched :=
                       SyncTranslations.matched (SyncTranslations.run_stats rr);
                     SyncTranslations.missing :=
                       SyncTranslations.missing (SyncTranslations.run_stats rr) + 1;
                     SyncTranslations.mismatched :=
                       SyncTranslations.mismatched (SyncTranslations.run_stats rr) |};
                SyncTranslations.reports :=
                  SyncTranslations.reports rr
                  ++ [[SyncTranslations.RMissing rel
                         (SyncTranslations.get_en_path rel)]];
                SyncTranslations.files_with_issues :=
                  SyncTranslations.files_with_issues rr ++ [rel] |}).
Proof.
  intros id_file en_fix en_report Hfix Hid Hrep.
  assert (sync_file (run_fs rf) id_file en_fix dry_run
          = Some (false, run_fs rf, [PrintSkip (name en_fix)])) as Hsync.
  { unfold sync_file. by rewrite decide_True. }
  assert (SyncTranslations.generate_report fs id_file en_report id_dir en_dir
          = Some ([SyncTranslations.RMissing rel
                     (SyncTranslations.get_en_path rel)], true)) as Hgen.
  { unfold SyncTranslations.generate_report. rewrite Hid. simpl.
    rewrite decide_True by done.
    subst id_file en_report. by rewrite !relative_to_app. }
  split_and!; [done| |done|].
  - cbn [SyncFix.main_loop]. unfold SyncFix.main_step.
    subst id_file. rewrite relative_to_app. simpl.
    fold en_fix. rewrite Hsync. simpl. by rewrite decide_True.
  - cbn [SyncTranslations.main_loop]. unfold SyncTranslations.main_step.
    subst id_file. rewrite relative_to_app. simpl.
    fold en_report. rewrite Hgen. simpl. by rewrite decide_True.
Qed.

End FileLevel.

(** *** The patterns of the parser *)

Section Patterns.

Import Re.

Lemma span_spec p s a b :
  span p s = (a, b) ->
  s = a ++ b /\ Forall (fun c => p c = true) a
  /\ match b with [] => True | c :: _ => p c = false end.
Proof.
  revert a b. induction s as [|c s IH]; intros a b; simpl.
  - intros [= <- <-]. by split_and!.
  - destruct (p c) eqn:Hc.
    + destruct (span p s) as [a' b']. intros [= <- <-].
      destruct (IH a' b' eq_refl) as (-> & Ha & Hb).
      split_and!; [done| by constructor | done].
    + intros [= <- <-]. by split_and!.
Qed.

Lemma span_app_eq p a b :
  Forall (fun c => p c = true) a ->
  match b with [] => True | c :: _ => p c = false end ->
  span p (a ++ b) = (a, b).
Proof.
  intros Ha Hb. induction Ha as [|c a Hc Ha IH]; simpl.
  - destruct b as [|c b]; simpl; [done|]. by rewrite Hb.
  - by rewrite Hc, IH.
Qed.

(** The text a line ends with: not empty, without a newline. *)
Lemma text_end_spec u t :
  text_end u = Some t -> t <> [] /\ (nl ∉ t) /\ (u = t \/ u = t ++ [nl]).
Proof.
  unfold text_end.
  destruct (span (fun c => negb (Ascii.eqb c nl)) u) as [a b] eqn:Hsp.
  destruct (span_spec _ _ _ _ Hsp) as (-> & Ha & Hb).
  assert (nl ∉ a) as Hnl.
  { intros Hin. rewrite Forall_forall in Ha. specialize (Ha _ Hin).
    by rewrite Ascii.eqb_refl in Ha. }
  destruct a as [|c a]; [done|].
  destruct b as [|c' [|c'' b]].
  - intros [= <-]. rewrite app_nil_r. by split_and!; [|done|left].
  - destruct (Ascii.eqb_spec c' nl) as [->|]; [|done].
    intros [= <-]. by split_and!; [|done|right].
  - done.
Qed.

Lemma text_end_id t : t <> [] -> nl ∉ t -> text_end t = Some t.
Proof.
  intros Hne Hnl. unfold text_end.
  assert (span (fun c => negb (Ascii.eqb c nl)) (t ++ []) = (t, [])) as Hsp.
  { apply span_app_eq; [|done]. rewrite Forall_forall. intros c Hc.
    destruct (Ascii.eqb_spec c nl) as [->|]; [done|done]. }
  rewrite app_nil_r in Hsp. rewrite Hsp. by destruct t.
Qed.

Lemma text_end_nl_None t : nl ∉ t -> text_end (t ++ [nl]) = None -> t = [].
Proof.
  intros Hnl. unfold text_end.
  assert (span (fun c => negb (Ascii.eqb c nl)) (t ++ [nl]) = (t, [nl])) as ->.
  { apply span_app_eq; [|done]. rewrite Forall_forall. intros c Hc.
    destruct (Ascii.eqb_spec c nl) as [->|]; [done|done]. }
  by destruct t.
Qed.

(** A match of the pattern of the separator and the text ends where
    the spaces could not be extended. *)
Lemma sp_text_origin r t :
  sp_text r = Some t -> exists u, text_end u = Some t /\ sp_text u = None.
Proof.
  revert t. induction r as [|c r IH]; intros t; simpl; [done|].
  destruct (isspace c); [|done].
  destruct (sp_text r) as [t'|] eqn:Hr.
  - intros [= <-]. by apply IH.
  - intros Ht. eauto.
Qed.

Lemma sp_text_of_text u t :
  text_end u = Some t -> sp_text u = None -> sp_text t = None.
Proof.
  intros Hu Hsp. destruct (text_end_spec _ _ Hu) as (Hne & Hnl & [->| ->]);
    [done|].
  destruct t as [|c t]; [done|]. simpl in *.
  destruct (isspace c); [|done].
  destruct (sp_text (t ++ [nl])) eqn:E1; [done|].
  apply not_elem_of_cons in Hnl as [_ Hnl].
  by rewrite (text_end_nl_None t Hnl Hsp).
Qed.

(** The text of a match, written after one space, is matched again as
    the same text. *)
Lemma sp_text_again r t :
  sp_text r = Some t -> sp_text (" "%char :: t) = Some t.
Proof.
  intros Hr. destruct (sp_text_origin _ _ Hr) as (u & Hu & Hsp).
  destruct (text_end_spec _ _ Hu) as (Hne & Hnl & _).
  cbn [sp_text]. change (isspace " ") with true. cbv iota.
  rewrite (sp_text_of_text _ _ Hu Hsp). by apply text_end_id.
Qed.

Lemma sp_text_no_nl r t : sp_text r = Some t -> nl ∉ t.
Proof.
  intros Hr. destruct (sp_text_origin _ _ Hr) as (u & Hu & _).
  by destruct (text_end_spec _ _ Hu) as (_ & Hnl & _).
Qed.

Lemma heading_spec line level t :
  heading line = Some (level, t) ->
  1 <= level <= 6 /\ exists r, sp_text r = Some t.
Proof.
  unfold heading. destruct (span is_hash line) as [h r].
  destruct ((1 <=? length h) && (length h <=? 6)) eqn:Hlen; [|done].
  apply andb_true_iff in Hlen as [H1%Nat.leb_le H6%Nat.leb_le].
  destruct (sp_text r) as [t'|] eqn:Hr; [|done].
  intros [= <- <-]. eauto.
Qed.

Lemma numbered_spec line ws ds t :
  numbered line = Some (ws, ds, t) ->
  ds <> [] /\ Forall (fun c => isdigit c = true) ds
  /\ exists r, sp_text r = Some t.
Proof.
  unfold numbered. destruct (span isspace line) as [ws' r].
  destruct (span isdigit r) as [ds' r2] eqn:Hds.
  destruct (span_spec _ _ _ _ Hds) as (_ & Hall & _).
  destruct ds' as [|d ds']; [done|]. destruct r2 as [|c r3]; [done|].
  destruct (Ascii.eqb c "."); [|done].
  destruct (sp_text r3) as [t'|] eqn:Hr; [|done].
  intros [= <- <- <-]. split_and!; eauto.
Qed.

Lemma bullet_spec line ws b t :
  bullet line = Some (ws, b, t) ->
  is_bullet b = true /\ exists r, sp_text r = Some t.
Proof.
  unfold bullet. destruct (span isspace line) as [ws' r].
  destruct r as [|c r2]; [done|].
  destruct (is_bullet c) eqn:Hb; [|done].
  destruct (sp_text r2) as [t'|] eqn:Hr; [|done].
  intros [= <- <- <-]. eauto.
Qed.

Lemma heading_None_head s :
  match s with [] => True | c :: _ => is_hash c = false end ->
  heading s = None.
Proof.
  intros Hs. unfold heading.
  assert (span is_hash ([] ++ s) = ([], s)) as Hsp by by apply span_app_eq.
  simpl in Hsp. by rewrite Hsp.
Qed.

Lemma isdigit_not_space c : isdigit c = true -> isspace c = false.
Proof. destruct c as [[] [] [] [] [] [] [] []]; by vm_compute. Qed.

Lemma isdigit_not_hash c : isdigit c = true -> is_hash c = false.
Proof. destruct c as [[] [] [] [] [] [] [] []]; by vm_compute. Qed.

Lemma is_bullet_not_space c : is_bullet c = true -> isspace c = false.
Proof. destruct c as [[] [] [] [] [] [] [] []]; by vm_compute. Qed.

Lemma is_bullet_not_hash c : is_bullet c = true -> is_hash c = false.
Proof. destruct c as [[] [] [] [] [] [] [] []]; by vm_compute. Qed.

Lemma is_bullet_not_digit c : is_bullet c = true -> isdigit c = false.
Proof. destruct c as [[] [] [] [] [] [] [] []]; by vm_compute. Qed.

End Patterns.

(** *** Parsing the lines fix mode writes *)

Section Reparse.

Import Re SyncFix.

Lemma times_Forall (p : ascii -> bool) c n :
  p c = true -> Forall (fun x => p x = true) (times c n).
Proof. intros Hc. unfold times. by apply Forall_replicate. Qed.

Lemma length_times c n : length (times c n) = n.
Proof. apply length_replicate. Qed.

Lemma parse_heading_line level t r :
  1 <= level <= 6 -> sp_text r = Some t ->
  parse_line (heading_line level t)
  = PHeading level t (heading_line level t).
Proof.
  intros Hl Hr. unfold parse_line, heading, heading_line.
  rewrite span_app_eq; [|by apply times_Forall|done].
  rewrite !length_times.
  destruct Hl as [H1%Nat.leb_le H6%Nat.leb_le]. rewrite H1, H6. cbn [andb].
  by rewrite (sp_text_again _ _ Hr).
Qed.

Lemma head_times_app c n s (p : ascii -> bool) :
  p c = false ->
  match s with [] => True | x :: _ => p x = false end ->
  match times c n ++ s with [] => True | x :: _ => p x = false end.
Proof. intros Hc Hs. unfold times. destruct n; simpl; [exact Hs | exact Hc]. Qed.

Lemma parse_numbered_line indent ds t r :
  ds <> [] -> Forall (fun c => isdigit c = true) ds -> sp_text r = Some t ->
  parse_line (numbered_line indent ds t)
  = PNumbered indent ds t (numbered_line indent ds t).
Proof.
  intros Hne Hds Hr. unfold parse_line, numbered_line.
  destruct ds as [|d ds]; [done|]. inversion Hds as [|? ? Hd Hds']; subst.
  rewrite heading_None_head.
  2:{ apply head_times_app; [done|]. by apply isdigit_not_hash. }
  unfold numbered.
  rewrite span_app_eq; [|by apply times_Forall|by apply isdigit_not_space].
  change ((d :: ds) ++ lit ". " ++ t)
    with ((d :: ds) ++ "."%char :: " "%char :: t).
  rewrite span_app_eq; [|done|done].
  change (Ascii.eqb "." ".") with true. cbv iota.
  rewrite (sp_text_again _ _ Hr).
  by rewrite length_times.
Qed.

Lemma parse_bullet_line indent b t r :
  is_bullet b = true -> sp_text r = Some t ->
  parse_line (bullet_line indent b t)
  = PBullet indent b t (bullet_line indent b t).
Proof.
  intros Hb Hr. unfold parse_line, bullet_line.
  rewrite heading_None_head.
  2:{ apply head_times_app; [done|]. by apply is_bullet_not_hash. }
  unfold numbered.
  rewrite span_app_eq; [|by apply times_Forall|by apply is_bullet_not_space].
  cbn [span]. rewrite (is_bullet_not_digit _ Hb).
  unfold bullet.
  rewrite span_app_eq; [|by apply times_Forall|by apply is_bullet_not_space].
  rewrite Hb, (sp_text_again _ _ Hr).
  by rewrite length_times.
Qed.

(** What the parser guarantees about a record. *)
Lemma parse_line_spec line :
  match parse_line line with
  | PHeading level t _ => 1 <= level <= 6 /\ exists r, sp_text r = Some t
  | PNumbered _ ds t _ =>
      ds <> [] /\ Forall (fun c => isdigit c = true) ds
      /\ exists r, sp_text r = Some t
  | PBullet _ b t _ => is_bullet b = true /\ exists r, sp_text r = Some t
  | POther _ => True
  end.
Proof.
  unfold parse_line.
  destruct (heading line) as [[level t]|] eqn:Hh;
    [by apply heading_spec in Hh|].
  destruct (numbered line) as [[[ws ds] t]|] eqn:Hn;
    [by apply numbered_spec in Hn|].
  destruct (bullet line) as [[[ws b] t]|] eqn:Hb;
    [by apply bullet_spec in Hb|done].
Qed.

(** The line the loop body appends for a pair of parsed lines parses
    to a record of the target's kind, text and number or bullet. *)
Lemma step_reparse id_line en_line st :
  exists l,
    new_en_lines (step (parse_line id_line) (parse_line en_line) st)
      = new_en_lines st ++ [l]
    /\ marker_text (parse_line l) = marker_text (parse_line en_line)
    /\ (matched_pair (parse_line id_line) (parse_line en_line) = true ->
        depth (parse_line l) = depth (parse_line id_line)).
Proof.
  pose proof (parse_line_spec id_line) as Hs.
  pose proof (parse_line_spec en_line) as Ht.
  pose proof (parse_line_original en_line) as Ho.
  destruct (parse_line id_line) as [sl st' so|si sn st' so|si sb st' so|so];
  destruct (parse_line en_line) as [tl tt to|ti tn tt to|ti tb tt to|to] eqn:Hen;
    simpl in Ho; subst; cbn [step ptype original];
    try (eexists; split; [reflexivity|]; rewrite Hen; by split).
  - destruct Hs as [Hl _]. destruct Ht as (_ & r & Hr). case_decide.
    + eexists; split; [reflexivity|].
      by rewrite (parse_heading_line _ _ _ Hl Hr).
    + eexists; split; [reflexivity|]. rewrite Hen. simpl.
      split; [done|]. intros _. lia.
  - destruct Ht as (Hne & Hds & r & Hr). case_decide.
    + eexists; split; [reflexivity|].
      by rewrite (parse_numbered_line _ _ _ _ Hne Hds Hr).
    + eexists; split; [reflexivity|]. rewrite Hen. simpl.
      split; [done|]. intros _. lia.
  - destruct Ht as (Hb & r & Hr). case_decide.
    + eexists; split; [reflexivity|].
      by rewrite (parse_bullet_line _ _ _ _ Hb Hr).
    + eexists; split; [reflexivity|]. rewrite Hen. simpl.
      split; [done|]. intros _. lia.
Qed.

End Reparse.

(** *** The traversal by recursion on the records that are left *)

Section Walk.

Import SyncFix.

Variables id_parsed en_parsed : list parsed.

Lemma copy_rest_walk : forall fuel st,
  length en_parsed - en_idx st <= fuel ->
  copy_rest en_parsed fuel st = walk (drop (en_idx st) en_parsed) [] st.
Proof.
  induction fuel as [|fuel IH]; intros st Hf; simpl.
  - by rewrite drop_ge by lia.
  - destruct (en_idx st <? length en_parsed) eqn:Hr.
    + apply Nat.ltb_lt in Hr.
      destruct (lookup_lt_is_Some_2 _ _ Hr) as [t Ht].
      rewrite IH by (rewrite copy_one_en_idx by done; lia).
      rewrite copy_one_en_idx by done.
      rewrite (drop_S _ _ _ Ht). cbn [walk].
      unfold copy_one. rewrite Ht. by rewrite Nat.add_1_r.
    + apply Nat.ltb_ge in Hr. by rewrite drop_ge by lia.
Qed.

Lemma while_walk : forall fuel st,
  length en_parsed - en_idx st <= fuel ->
  copy_rest en_parsed (length en_parsed) (while id_parsed en_parsed fuel st)
  = walk (drop (en_idx st) en_parsed) (drop (id_idx st) id_parsed) st.
Proof.
  induction fuel as [|fuel IH]; intros st Hf; simpl.
  - rewrite copy_rest_walk by lia. by rewrite drop_ge by lia.
  - destruct (in_range id_parsed en_parsed st) eqn:Hr.
    + destruct (in_range_lookup _ _ _ Hr) as (s & t & Hs & Ht).
      rewrite (iterate_step _ _ _ _ _ Hs Ht).
      rewrite IH by (rewrite step_en_idx; lia).
      rewrite step_en_idx, (drop_S _ _ _ Ht), (drop_S _ _ _ Hs).
      cbn [walk]. rewrite Nat.add_1_r.
      destruct (step_id_idx s t st) as [E|E]; rewrite E.
      * rewrite decide_True by done. by rewrite (drop_S _ _ _ Hs).
      * rewrite decide_False by lia. by rewrite Nat.add_1_r.
    + rewrite copy_rest_walk by lia.
      unfold in_range in Hr. apply andb_false_iff in Hr as [Hr|Hr];
        apply Nat.ltb_ge in Hr.
      * by rewrite (drop_ge id_parsed) by lia.
      * rewrite drop_ge by lia. done.
Qed.

(** The two loops and the recursion compute the same state. *)
Lemma walk_align : align id_parsed en_parsed = walk en_parsed id_parsed init.
Proof. unfold align. rewrite while_walk by (simpl; lia). done. Qed.

End Walk.

(** *** Text and markers under fix mode *)

Section Markers.

Import SyncFix.

Lemma lookup_parsed (lines : list str) i p :
  map parse_line lines !! i = Some p ->
  exists line, lines !! i = Some line /\ p = parse_line line.
Proof.
  change (map parse_line lines) with (parse_line <$> lines).
  rewrite list_lookup_fmap. destruct (lines !! i) as [line|]; [|done].
  intros [= <-]. eauto.
Qed.

Lemma align_marker_text (id_lines en_lines : list str) :
  map (fun l => marker_text (parse_line l))
      (new_en_lines (align (map parse_line id_lines) (map parse_line en_lines)))
  = map (fun l => marker_text (parse_line l)) en_lines.
Proof.
  set (ids := map parse_line id_lines). set (ens := map parse_line en_lines).
  assert (map (fun l => marker_text (parse_line l))
            (new_en_lines (align ids ens))
          = map marker_text (take (en_idx (align ids ens)) ens)) as H.
  { apply (align_rule ids ens (fun st =>
      map (fun l => marker_text (parse_line l)) (new_en_lines st)
      = map marker_text (take (en_idx st) ens))).
    - done.
    - intros st s t Hst Hs Ht.
      destruct (lookup_parsed _ _ _ Hs) as (il & _ & ->).
      destruct (lookup_parsed _ _ _ Ht) as (el & _ & Hel).
      rewrite step_en_idx, Nat.add_1_r, (take_S_r _ _ _ Ht), map_app.
      subst t. destruct (step_reparse il el st) as (l & -> & Hl & _).
      rewrite map_app, Hst. simpl. by rewrite Hl.
    - intros st Hst Hlt.
      destruct (lookup_lt_is_Some_2 _ _ Hlt) as [t Ht].
      rewrite copy_one_en_idx by done.
      rewrite Nat.add_1_r, (take_S_r _ _ _ Ht), map_app.
      unfold copy_one. rewrite Ht. simpl. rewrite map_app, Hst. simpl.
      destruct (lookup_parsed _ _ _ Ht) as (el & _ & ->).
      by rewrite parse_line_original. }
  rewrite H, align_en_idx, firstn_all. unfold ens. by rewrite map_map.
Qed.

Lemma step_rendered s t st :
  matched_pair s t = true -> depth t <> depth s ->
  new_en_lines (step s t st)
  = new_en_lines st ++ [Cover.rendered (depth s) t].
Proof.
  destruct s, t; simpl; try done; intros _ Hd; by rewrite decide_True.
Qed.

(** C4 as stated fails: a replacement line is built with exactly one
    space between the marker and the text and with spaces as
    indentation, so more than the level or the indentation changes.
    The target heading with three spaces after its marker, fixed
    against a source heading of level 2, loses two of them; the target
    item with two tabs after its number, fixed against a source item
    indented by two, gets one space for them. *)
Lemma fix_rewrites_separator :
  let s := parse_line (lit "## Judul") in
  let t := parse_line (lit "#   Title") in
  let s' := parse_line (lit "  1. Langkah") in
  let item := lit "1." ++ ["009"%char; "009"%char] ++ lit "Step" in
  let t' := parse_line item in
  (matched_pair s t = true
   /\ new_en_lines (step s t init) = [lit "## Title"]
   /\ ~ Cover.only_level_altered (lit "#   Title") (lit "## Title"))
  /\ (matched_pair s' t' = true
      /\ new_en_lines (step s' t' init) = [lit "  1. Step"]
      /\ ~ Cover.only_indent_altered item (lit "  1. Step")).
Proof. vm_compute. split_and!; try reflexivity; discriminate. Qed.

(** C4, amended. For a matched pair of parsed lines the line the loop
    body appends parses to a record with the target's own text and the
    target's own number or bullet, and with the level or indentation
    of the source.  It is the target line itself when the two levels
    or indentations are equal already; otherwise it is built anew: the
    marker characters at the source's level, or that many spaces of
    indentation and the target's number and period or bullet, then
    exactly one space, then the target's text.  On every input the
    lines fix mode produces parse, line by line, to records of the
    same kind, text, number and bullet as the target's. *)
Theorem fix_preserves_text_and_marker
    (id_lines en_lines : list str) (id_line en_line : str) (st : state) :
  matched_pair (parse_line id_line) (parse_line en_line) = true ->
  (exists l,
     new_en_lines (step (parse_line id_line) (parse_line en_line) st)
       = new_en_lines st ++ [l]
     /\ marker_text (parse_line l) = marker_text (parse_line en_line)
     /\ depth (parse_line l) = depth (parse_line id_line)
     /\ (depth (parse_line en_line) = depth (parse_line id_line) ->
         l = en_line)
     /\ (depth (parse_line en_line) <> depth (parse_line id_line) ->
         l = Cover.rendered (depth (parse_line id_line))
               (parse_line en_line)))
  /\ map (fun l => marker_text (parse_line l))
         (new_en_lines (align (map parse_line id_lines)
                              (map parse_line en_lines)))
     = map (fun l => marker_text (parse_line l)) en_lines.
Proof.
  intros Hm. split; [|apply align_marker_text].
  destruct (step_reparse id_line en_line st) as (l & Hl & Hmt & Hd).
  exists l. split_and!; [done | done | auto | |].
  - intros E.
    destruct (step_agree (parse_line id_line) (parse_line en_line) st)
      as (Hl' & _ & _); [by apply agree_of_depth|].
    rewrite Hl, parse_line_original in Hl'.
    by apply app_inj_tail in Hl' as [_ ->].
  - intros E. pose proof (step_rendered _ _ st Hm E) as Hl'.
    rewrite Hl in Hl'. by apply app_inj_tail in Hl' as [_ ->].
Qed.

End Markers.

(** *** Report mode against the traversal of fix mode *)

Section ReportVsFix.

Import SyncTranslations SyncFix.


Lemma step_same_kind s t st :
  ptype s = ptype t -> id_idx (step s t st) = id_idx st + 1.
Proof.
  destruct s, t; simpl; try done; intros _; repeat case_decide; done.
Qed.





End ReportVsFix.

(** *** The number of lines fix mode writes *)

Section LineCount.

Import Re SyncFix.

Lemma while_stable id_parsed en_parsed fuel st :
  in_range id_parsed en_parsed st = false ->
  while id_parsed en_parsed fuel st = st.
Proof. intros Hr. destruct fuel; simpl; [done|]. by rewrite Hr. Qed.

(** More iterations than the target has records change nothing. *)
Lemma while_more_fuel id_parsed en_parsed extra : forall fuel st,
  length en_parsed - en_idx st <= fuel ->
  while id_parsed en_parsed (fuel + extra) st
  = while id_parsed en_parsed fuel st.
Proof.
  induction fuel as [|fuel IH]; intros st Hf; simpl.
  - apply while_stable. unfold in_range. apply andb_false_iff. right.
    apply Nat.ltb_ge. lia.
  - destruct (in_range id_parsed en_parsed st) eqn:Hr; [|done].
    destruct (in_range_lookup _ _ _ Hr) as (s & t & Hs & Ht).
    apply IH. rewrite (iterate_step _ _ _ _ _ Hs Ht), step_en_idx. lia.
Qed.

Lemma copy_rest_more_fuel en_parsed extra : forall fuel st,
  length en_parsed - en_idx st <= fuel ->
  copy_rest en_parsed (fuel + extra) st = copy_rest en_parsed fuel st.
Proof.
  induction fuel as [|fuel IH]; intros st Hf; simpl.
  - destruct extra; simpl; [done|].
    destruct (en_idx st <? length en_parsed) eqn:Hr; [|done].
    apply Nat.ltb_lt in Hr. lia.
  - destruct (en_idx st <? length en_parsed) eqn:Hr; [|done].
    apply Nat.ltb_lt in Hr. apply IH. rewrite copy_one_en_idx by done. lia.
Qed.

Lemma isdigit_not_nl c : isdigit c = true -> c <> nl.
Proof. by intros H ->. Qed.

Lemma is_bullet_not_nl c : is_bullet c = true -> c <> nl.
Proof. by intros H ->. Qed.

Lemma times_no_nl c n : c <> nl -> nl ∉ times c n.
Proof. intros Hc [E _]%elem_of_replicate. by subst. Qed.

Lemma heading_line_no_nl level t : nl ∉ t -> nl ∉ heading_line level t.
Proof.
  intros Ht. unfold heading_line.
  rewrite not_elem_of_app, not_elem_of_cons.
  split_and!; [by apply times_no_nl | done | done].
Qed.

Lemma numbered_line_no_nl indent ds t :
  Forall (fun c => isdigit c = true) ds -> nl ∉ t ->
  nl ∉ numbered_line indent ds t.
Proof.
  intros Hds Ht. unfold numbered_line.
  rewrite !not_elem_of_app. split_and!; [by apply times_no_nl | | | done].
  - intros Hin. rewrite Forall_forall in Hds. by specialize (Hds _ Hin).
  - unfold lit. simpl. rewrite !not_elem_of_cons.
    split_and!; [done | done | apply not_elem_of_nil].
Qed.

Lemma bullet_line_no_nl indent b t :
  is_bullet b = true -> nl ∉ t -> nl ∉ bullet_line indent b t.
Proof.
  intros Hb Ht. unfold bullet_line.
  rewrite not_elem_of_app, !not_elem_of_cons.
  split_and!; [by apply times_no_nl | | done | done].
  intros E. by apply (is_bullet_not_nl b).
Qed.

(** The line the loop body appends for two parsed lines holds no
    newline when the target line holds none. *)
Lemma step_no_nl id_line en_line st :
  nl ∉ en_line ->
  exists l,
    new_en_lines (step (parse_line id_line) (parse_line en_line) st)
      = new_en_lines st ++ [l]
    /\ nl ∉ l.
Proof.
  intros Hnl.
  pose proof (parse_line_spec en_line) as Ht.
  pose proof (parse_line_original en_line) as Ho.
  destruct (parse_line id_line) as [sl st' so|si sn st' so|si sb st' so|so];
  destruct (parse_line en_line) as [tl tt to|ti tn tt to|ti tb tt to|to];
    simpl in Ho; subst; cbn [step original]; try (by eexists).
  - destruct Ht as (_ & r & Hr%sp_text_no_nl).
    case_decide; eexists; (split; [reflexivity|]); [|done].
    by apply heading_line_no_nl.
  - destruct Ht as (_ & Hds & r & Hr%sp_text_no_nl).
    case_decide; eexists; (split; [reflexivity|]); [|done].
    by apply numbered_line_no_nl.
  - destruct Ht as (Hb & r & Hr%sp_text_no_nl).
    case_decide; eexists; (split; [reflexivity|]); [|done].
    by apply bullet_line_no_nl.
Qed.

Lemma align_no_nl (id_lines en_lines : list str) :
  Forall (fun l => nl ∉ l) en_lines ->
  Forall (fun l => nl ∉ l)
    (new_en_lines (align (map parse_line id_lines) (map parse_line en_lines))).
Proof.
  intros Hen. apply align_rule.
  - constructor.
  - intros st s t Hst Hs Ht.
    destruct (lookup_parsed _ _ _ Hs) as (il & _ & ->).
    destruct (lookup_parsed _ _ _ Ht) as (el & Hel & ->).
    assert (nl ∉ el) as Hnl.
    { rewrite Forall_forall in Hen. apply Hen.
      by apply list_elem_of_lookup_2 in Hel. }
    destruct (step_no_nl il el st Hnl) as (l & -> & Hl).
    apply Forall_app. split; [done|]. by constructor.
  - intros st Hst Hlt.
    destruct (lookup_lt_is_Some_2 _ _ Hlt) as [t Ht].
    unfold copy_one. rewrite Ht. simpl.
    destruct (lookup_parsed _ _ _ Ht) as (el & Hel & ->).
    rewrite parse_line_original.
    apply Forall_app. split; [done|]. constructor; [|done].
    rewrite Forall_forall in Hen. apply Hen.
    by apply list_elem_of_lookup_2 in Hel.
Qed.

(** C10. The lines fix mode produces are as many as the target
    records: every iteration of the first loop appends one line and
    moves the target cursor by one; the loop ends within as many
    iterations as there are target records, with one line written per
    record passed; the result is those lines followed by the raw lines
    of all the target records from the cursor on, whatever is left of
    the source, and the target cursor ends behind the last record.
    For two bodies, the body joined from the produced lines has as
    many lines as the target body. *)
Theorem fix_keeps_line_count
    (id_parsed en_parsed : list parsed) (id_body en_body : str) :
  let w := while id_parsed en_parsed (length en_parsed) init in
  let out := new_en_lines (align (map parse_line (split id_body))
                                 (map parse_line (split en_body))) in
  length (new_en_lines (align id_parsed en_parsed)) = length en_parsed
  /\ (forall s t st,
        en_idx (step s t st) = en_idx st + 1
        /\ length (new_en_lines (step s t st)) = length (new_en_lines st) + 1)
  /\ in_range id_parsed en_parsed w = false
  /\ length (new_en_lines w) = en_idx w
  /\ new_en_lines (align id_parsed en_parsed)
     = new_en_lines w ++ map original (drop (en_idx w) en_parsed)
  /\ en_idx (align id_parsed en_parsed) = length en_parsed
  /\ length (split (join out)) = length (split en_body).
Proof.
  intros w out.
  assert (forall s t st,
    length (new_en_lines (step s t st)) = length (new_en_lines st) + 1) as Hlen.
  { intros s t st. destruct (step_appends s t st) as [l ->].
    rewrite length_app. simpl. lia. }
  assert (forall ids ens fuel st, length (new_en_lines st) = en_idx st ->
    length (new_en_lines (while ids ens fuel st))
    = en_idx (while ids ens fuel st)) as Hw.
  { intros ids ens. induction fuel as [|fuel IH]; intros st Hst; simpl; [done|].
    destruct (in_range ids ens st) eqn:Hr; [|done].
    destruct (in_range_lookup _ _ _ Hr) as (s & t & Hs & Ht).
    apply IH. rewrite (iterate_step _ _ _ _ _ Hs Ht), Hlen, step_en_idx. lia. }
  assert (forall ids ens,
    new_en_lines (align ids ens)
    = new_en_lines (while ids ens (length ens) init)
      ++ map original (drop (en_idx (while ids ens (length ens) init)) ens))
    as Hall.
  { intros ids ens. unfold align. apply copy_rest_lines. lia. }
  assert (forall ids ens, length (new_en_lines (align ids ens)) = length ens)
    as Hcount.
  { intros ids ens.
    rewrite <- (align_en_idx ids ens).
    apply (align_rule ids ens
             (fun st => length (new_en_lines st) = en_idx st)).
    - done.
    - intros st s t Hst _ _. rewrite Hlen, step_en_idx. lia.
    - intros st Hst Hlt. rewrite copy_one_en_idx by done.
      unfold copy_one. destruct (lookup_lt_is_Some_2 _ _ Hlt) as [t ->].
      simpl. rewrite length_app. simpl. lia. }
  split_and!.
  - apply Hcount.
  - intros s t st. split; [apply step_en_idx | apply Hlen].
  - apply while_exits. simpl. lia.
  - by apply Hw.
  - apply Hall.
  - apply align_en_idx.
  - rewrite split_join.
    + subst out. by rewrite Hcount, !length_map.
    + intros E. pose proof (Hcount (map parse_line (split id_body))
                                   (map parse_line (split en_body))) as Hc.
      fold out in Hc. rewrite E, !length_map in Hc.
      pose proof (split_nonempty en_body). by destruct (split en_body).
    + apply align_no_nl, split_no_nl.
Qed.

End LineCount.

(** *** Running fix mode on its own output *)

Section FixedPoint.

Import SyncFix.

Lemma step_emitted s t st :
  new_en_lines (step s t st) = new_en_lines st ++ [emitted s t].
Proof.
  destruct s, t; unfold emitted; simpl; repeat case_decide; simpl; done.
Qed.

Lemma step_other_kind s t st :
  ptype s <> ptype t -> id_idx (step s t st) = id_idx st.
Proof. destruct s, t; simpl; try done; intros _; by rewrite decide_False. Qed.

Lemma walk_cons s t ids ens st :
  walk (t :: ens) (s :: ids) st
  = walk ens (if decide (ptype s = ptype t) then ids else s :: ids)
      (step s t st).
Proof.
  cbn [walk]. destruct (decide (ptype s = ptype t)) as [E|E].
  - rewrite (step_same_kind _ _ _ E). by rewrite decide_False by lia.
  - rewrite (step_other_kind _ _ _ E). by rewrite decide_True.
Qed.

Lemma walk_outs ens : forall ids st,
  new_en_lines (walk ens ids st) = new_en_lines st ++ outs ens ids.
Proof.
  induction ens as [|t ens IH]; intros ids st.
  - simpl. by rewrite app_nil_r.
  - destruct ids as [|s ids].
    + cbn [walk outs]. rewrite IH. simpl. by rewrite <- app_assoc.
    + rewrite walk_cons, IH, step_emitted. cbn [outs].
      by rewrite <- app_assoc.
Qed.

Lemma align_outs ids ens : new_en_lines (align ids ens) = outs ens ids.
Proof. by rewrite walk_align, walk_outs. Qed.

Lemma aligned_from_agree_walk ids ens : forall fuel st,
  length ens - en_idx st <= fuel ->
  aligned_from ids ens fuel st
  = agree_walk (drop (en_idx st) ens) (drop (id_idx st) ids).
Proof.
  induction fuel as [|fuel IH]; intros st Hf; simpl.
  - by rewrite drop_ge by lia.
  - destruct (in_range ids ens st) eqn:Hr.
    + destruct (in_range_lookup _ _ _ Hr) as (s & t & Hs & Ht).
      rewrite Hs, Ht, (iterate_step _ _ _ _ _ Hs Ht).
      rewrite IH by (rewrite step_en_idx; lia).
      rewrite step_en_idx, (drop_S _ _ _ Ht), (drop_S _ _ _ Hs).
      cbn [agree_walk]. rewrite Nat.add_1_r. f_equal.
      destruct (decide (ptype s = ptype t)) as [E|E].
      * by rewrite (step_same_kind _ _ _ E), Nat.add_1_r.
      * by rewrite (step_other_kind _ _ _ E), (drop_S _ _ _ Hs).
    + unfold in_range in Hr. apply andb_false_iff in Hr as [Hr|Hr];
        apply Nat.ltb_ge in Hr.
      * rewrite (drop_ge ids) by lia. by destruct (drop (en_idx st) ens).
      * by rewrite drop_ge by lia.
Qed.

Lemma aligned_agree_walk ids ens : aligned ids ens = agree_walk ens ids.
Proof. unfold aligned. by rewrite aligned_from_agree_walk by (simpl; lia). Qed.

Lemma marker_text_ptype p q : marker_text p = marker_text q -> ptype p = ptype q.
Proof. by destruct p, q. Qed.

Lemma matched_pair_ptype s t t' :
  ptype t' = ptype t -> matched_pair s t' = matched_pair s t.
Proof. unfold matched_pair. by intros ->. Qed.

Lemma outs_agree (en_lines : list str) : forall id_lines : list str,
  agree_walk
    (map parse_line (outs (map parse_line en_lines) (map parse_line id_lines)))
    (map parse_line id_lines) = true.
Proof.
  induction en_lines as [|el en_lines IH]; intros [|il id_lines]; try done.
  cbn [map outs agree_walk].
  destruct (step_reparse il el init) as (l & Hl & Hmt & Hd).
  rewrite step_emitted in Hl. apply app_inj_tail in Hl as [_ <-].
  pose proof (marker_text_ptype _ _ Hmt) as Hk.
  rewrite Hk. apply andb_true_iff. split.
  - apply agree_of_depth. rewrite (matched_pair_ptype _ _ _ Hk). exact Hd.
  - destruct (decide (ptype (parse_line il) = ptype (parse_line el))).
    + apply IH.
    + apply (IH (il :: id_lines)).
Qed.

(** The lines fix mode writes are aligned with the source. *)
Lemma fix_output_aligned (id_lines en_lines : list str) :
  aligned (map parse_line id_lines)
    (map parse_line
       (new_en_lines (align (map parse_line id_lines)
                            (map parse_line en_lines)))) = true.
Proof. rewrite aligned_agree_walk, align_outs. apply outs_agree. Qed.

(** Fix mode run on its own output writes the same lines again and
    flags no change. *)
Lemma fix_twice (id_lines en_lines : list str) :
  let ids := map parse_line id_lines in
  let out := new_en_lines (align ids (map parse_line en_lines)) in
  new_en_lines (align ids (map parse_line out)) = out
  /\ changes_made (align ids (map parse_line out)) = false
  /\ printed (align ids (map parse_line out)) = [].
Proof.
  intros ids out.
  destruct (aligned_untouched ids (map parse_line out)
              (fix_output_aligned id_lines en_lines)) as (Hl & Hc & Hp).
  split_and!; [|done..]. rewrite Hl. apply map_original_parse.
Qed.

End FixedPoint.

(** *** The patterns and the scenarios of the specification, evaluated *)

Section Scenarios.

Import SyncTranslations SyncFix.

(** The separator gives one space back when no text follows it. *)
Example heading_of_spaces :
  Re.heading (lit "#  ") = Some (1, lit " ")
  /\ Re.heading (lit "# ") = None.
Proof. by vm_compute. Qed.

(** Seven marker characters, or no separator, are no heading. *)
Example heading_rejected :
  Re.heading (lit "####### Title") = None
  /\ Re.heading (lit "#Title") = None.
Proof. by vm_compute. Qed.

(** No space after the list marker: plain text in both parsers. *)
Example malformed_list_marker :
  parse_line (lit "1.Step") = POther (lit "1.Step")
  /\ parse_line (lit "-item") = POther (lit "-item")
  /\ etype (classify 0 (lit "1.Step")) = k_text.
Proof. by vm_compute. Qed.

(** A tab of indentation counts as one character. *)
Example tab_indent :
  parse_line ("009"%char :: lit "- item")
  = PBullet 1 "-" (lit "item") ("009"%char :: lit "- item").
Proof. by vm_compute. Qed.

(** Scenario 1: the heading level is copied from the source, and
    report mode warns about levels 2 and 3. *)
Example scenario_1 :
  let st := align [parse_line (lit "## Title")] [parse_line (lit "### Title")] in
  new_en_lines st = [lit "## Title"] /\ changes_made st = true
  /\ printed st = [PrintFix 3 2]
  /\ (compare_bodies [] (lit "## Title") (lit "### Title")).1
     = [RFile []; RHeadingsOk 1; RHeadingLevel 1 2 3; RListsOk 0].
Proof. by vm_compute. Qed.

(** Scenario 2: the indentation is copied, number and text are kept. *)
Example scenario_2 :
  let st := align [parse_line (lit "  1. Langkah")] [parse_line (lit "1. Step")] in
  new_en_lines st = [lit "  1. Step"] /\ changes_made st = true.
Proof. by vm_compute. Qed.

(** Scenario 5: a comment line inside a fenced block is fence content
    in report mode and is not among the headings. *)
Example scenario_5 :
  let structure :=
    analyze_structure (join [lit "```sh"; lit "# comment"; lit "```"]) in
  map etype structure
    = [k_code_block_start; k_code_block_content; k_code_block_end]
  /\ filter (fun s => is_heading s = true) structure = [].
Proof. by vm_compute. Qed.

(** A file without front matter that fix mode rewrites starts with an
    empty line afterwards: the front matter written back is empty. *)
Example rewritten_file_starts_with_newline :
  let id_file := [lit "id"; lit "login.mdx"] in
  let en_file := [lit "en"; lit "login.mdx"] in
  let fs : filesystem :=
    <[id_file := lit "## Masuk"]> {[en_file := lit "### Login"]} in
  match sync_file fs id_file en_file false with
  | Some (flag, fs', out) =>
      flag = true
      /\ fs' !! en_file = Some (nl :: lit "## Login")
      /\ fs' !! [lit "en"; lit "login.mdx.bak"] = Some (lit "### Login")
      /\ fs' !! id_file = Some (lit "## Masuk")
      /\ out = [PrintFix 3 2;
                PrintUpdated (lit "login.mdx") (lit "login.mdx.bak")]
  | None => False
  end.
Proof. by vm_compute. Qed.

End Scenarios.

(** *** The theorems at concrete documents *)

Section Instances.

Import SyncTranslations SyncFix.

(** A paragraph in the source against a heading in the target. *)
Lemma unmatched_pair_copies_target_witness :
  let id_parsed := [parse_line (lit "Selamat datang")] in
  let en_parsed := [parse_line (lit "# Welcome")] in
  let s := POther (lit "Selamat datang") in
  let t := PHeading 1 (lit "Welcome") (lit "# Welcome") in
  let st' := iterate id_parsed en_parsed init in
  (id_parsed !! id_idx init = Some s
   /\ en_parsed !! en_idx init = Some t
   /\ matched_pair s t = false)
  /\ (new_en_lines st' = new_en_lines init ++ [original t]
      /\ en_idx st' = en_idx init + 1
      /\ changes_made st' = changes_made init
      /\ printed st' = printed init
      /\ (id_idx st' = id_idx init + 1
          <-> ptype s = ptype t /\ comparable (ptype s) = false)
      /\ (id_idx st' = id_idx init <-> ptype s <> ptype t)).
Proof.
  intros id_parsed en_parsed s t st'.
  assert (id_parsed !! id_idx init = Some s) as H1 by reflexivity.
  assert (en_parsed !! en_idx init = Some t) as H2 by reflexivity.
  assert (matched_pair s t = false) as H3 by reflexivity.
  split; [by split_and! |].
  exact (unmatched_pair_copies_target id_parsed en_parsed init s t H1 H2 H3).
Defined.

(** Scenarios 1 and 2 of the specification in one document. *)
Lemma fix_preserves_text_and_marker_witness :
  let id_lines := [lit "## Judul"; lit "  1. Langkah"] in
  let en_lines := [lit "### Title"; lit "1. Step"] in
  matched_pair (parse_line (lit "## Judul")) (parse_line (lit "### Title"))
    = true
  /\ ((exists l,
         new_en_lines (step (parse_line (lit "## Judul"))
                            (parse_line (lit "### Title")) init)
           = new_en_lines init ++ [l]
         /\ marker_text (parse_line l)
            = marker_text (parse_line (lit "### Title"))
         /\ depth (parse_line l) = depth (parse_line (lit "## Judul"))
         /\ (depth (parse_line (lit "### Title"))
               = depth (parse_line (lit "## Judul")) ->
             l = lit "### Title")
         /\ (depth (parse_line (lit "### Title"))
               <> depth (parse_line (lit "## Judul")) ->
             l = Cover.rendered (depth (parse_line (lit "## Judul")))
                   (parse_line (lit "### Title"))))
      /\ map (fun l => marker_text (parse_line l))
             (new_en_lines (align (map parse_line id_lines)
                                  (map parse_line en_lines)))
         = map (fun l => marker_text (parse_line l)) en_lines).
Proof.
  intros id_lines en_lines.
  assert (matched_pair (parse_line (lit "## Judul"))
                       (parse_line (lit "### Title")) = true) as H
    by reflexivity.
  split; [exact H |].
  exact (fix_preserves_text_and_marker id_lines en_lines
           (lit "## Judul") (lit "### Title") init H).
Defined.

(** Two files that already agree. *)
Lemma aligned_pair_is_left_unchanged_witness :
  let id_file := [lit "id"; lit "login.mdx"] in
  let en_file := [lit "en"; lit "login.mdx"] in
  let id_content := join [lit "# Masuk"; lit "- buka aplikasi"] in
  let en_content := join [lit "# Login"; lit "- open the app"] in
  let fs : filesystem := <[id_file := id_content]> {[en_file := en_content]} in
  let id_parsed := map parse_line (split (extract_frontmatter id_content).2) in
  let en_parsed := map parse_line (split (extract_frontmatter en_content).2) in
  (fs !! id_file = Some id_content /\ fs !! en_file = Some en_content
   /\ aligned id_parsed en_parsed = true)
  /\ (new_en_lines (align id_parsed en_parsed)
        = split (extract_frontmatter en_content).2
      /\ changes_made (align id_parsed en_parsed) = false
      /\ sync_file fs id_file en_file false = Some (false, fs, [])).
Proof.
  intros id_file en_file id_content en_content fs id_parsed en_parsed.
  assert (fs !! id_file = Some id_content) as H1 by (by vm_compute).
  assert (fs !! en_file = Some en_content) as H2 by (by vm_compute).
  assert (aligned id_parsed en_parsed = true) as H3 by (by vm_compute).
  split; [by split_and! |].
  exact (aligned_pair_is_left_unchanged fs id_file en_file false
           id_content en_content H1 H2 H3).
Defined.


(** A source page whose translation is not there. *)
Lemma missing_target_is_skipped_witness :
  let id_dir := [lit "content"; lit "docs"; lit "id"] in
  let en_dir := [lit "content"; lit "docs"; lit "en"] in
  let rel := [lit "menu-siswa"; lit "ujian.mdx"] in
  let fs : filesystem := {[id_dir ++ rel := lit "# Ujian"]} in
  let rf := {| run_stats := {| total := 0; updated := 0; skipped := 0;
                               no_change := 0 |};
               run_fs := fs; run_out := [] |} in
  let rr := {| SyncTranslations.run_stats :=
                 {| SyncTranslations.total := 1;
                    SyncTranslations.matched := 0;
                    SyncTranslations.missing := 0;
                    SyncTranslations.mismatched := 0 |};
               SyncTranslations.reports := [];
               SyncTranslations.files_with_issues := [] |} in
  (run_fs rf !! (en_dir ++ SyncFix.get_en_path rel) = None
   /\ fs !! (id_dir ++ rel) = Some (lit "# Ujian")
   /\ fs !! (en_dir ++ SyncTranslations.get_en_path rel) = None)
  /\ SyncFix.main_loop id_dir en_dir false [id_dir ++ rel] rf
     = Some {| run_stats := {| total := 1; updated := 0; skipped := 1;
                               no_change := 0 |};
               run_fs := fs;
               run_out := [PrintFile rel; PrintSkip (lit "exams.mdx")] |}
  /\ SyncTranslations.main_loop fs id_dir en_dir [id_dir ++ rel] rr
     = Some {| SyncTranslations.run_stats :=
                 {| SyncTranslations.total := 1;
                    SyncTranslations.matched := 0;
                    SyncTranslations.missing := 1;
                    SyncTranslations.mismatched := 0 |};
               SyncTranslations.reports :=
                 [[RMissing rel [lit "student-menu"; lit "exams.mdx"]]];
               SyncTranslations.files_with_issues := [rel] |}.
Proof.
  intros id_dir en_dir rel fs rf rr.
  assert (run_fs rf !! (en_dir ++ SyncFix.get_en_path rel) = None) as H1
    by (by vm_compute).
  assert (fs !! (id_dir ++ rel) = Some (lit "# Ujian")) as H2
    by (by vm_compute).
  assert (fs !! (en_dir ++ SyncTranslations.get_en_path rel) = None) as H3
    by (by vm_compute).
  split; [by split_and! |].
  destruct (missing_target_is_skipped id_dir en_dir rel (lit "# Ujian")
              [] [] false fs rf rr H1 H2 H3) as [[_ Hfix] [_ Hreport]].
  rewrite Hfix, Hreport. split; reflexivity.
Defined.

End Instances.

(** ** Further properties of the two scripts *)

Import Cover.

(** *** The two parsers side by side *)

Section ParsersAgree.

Import SyncTranslations SyncFix.

Lemma classify_to_parsed i l : to_parsed (classify i l) = parse_line l.
Proof.
  unfold classify, parse_line.
  destruct (Re.heading l) as [[? ?]|]; [done|].
  destruct (Re.numbered l) as [[[? ?] ?]|]; [done|].
  destruct (Re.bullet l) as [[[? ?] ?]|]; [done|].
  by repeat case_match.
Qed.

Lemma analyze_from_to_parsed lines : forall i,
  Forall (fun l => is_fence l = false) lines ->
  map to_parsed (analyze_from lines i false) = map parse_line lines.
Proof.
  induction lines as [|l lines IH]; intros i Hall; [done|].
  inversion Hall as [|? ? Hl Hall']; subst.
  cbn [analyze_from map]. rewrite Hl. cbn [map].
  by rewrite classify_to_parsed, IH.
Qed.

(** X1. On a body without fence lines the parser of report mode and
    the parser of fix mode agree line by line: a heading, a numbered
    item or a bullet item has the same level or indentation, number or
    bullet, text and raw line in both, and every other line, which
    report mode calls import, rule or text, is a line of kind other
    in fix mode. *)
Theorem parsers_agree_outside_fences (body : str) :
  Forall (fun l => is_fence l = false) (split body) ->
  map to_parsed (analyze_structure body) = map parse_line (split body).
Proof. intros Hall. by apply analyze_from_to_parsed. Qed.

Lemma parsers_agree_outside_fences_witness :
  let body := join [lit "# Judul"; lit "  2. langkah"; lit "- butir";
                    lit "import X from 'x'"; lit "---"; lit "teks"] in
  Forall (fun l => is_fence l = false) (split body)
  /\ map to_parsed (analyze_structure body) = map parse_line (split body).
Proof.
  intros body.
  assert (Forall (fun l => is_fence l = false) (split body)) as H
    by (refine (bool_decide_unpack _ _); vm_compute; exact I).
  split; [exact H|]. exact (parsers_agree_outside_fences body H).
Defined.

Lemma in_block_cons l lines :
  in_block (l :: lines) = xorb (is_fence l) (in_block lines).
Proof.
  unfold in_block. destruct (is_fence l) eqn:Hl.
  - rewrite filter_cons_True by done. cbn [length].
    rewrite Nat.odd_succ, <- Nat.negb_odd. reflexivity.
  - rewrite filter_cons_False by (by rewrite Hl). done.
Qed.

Lemma analyze_from_closed_form lines : forall i b,
  analyze_from lines i b
  = imap (fun k l => record_at (xorb b (in_block (take k lines))) (i + k) l)
         lines.
Proof.
  induction lines as [|l lines IH]; intros i b; [done|].
  assert (forall b', analyze_from lines (S i) (xorb b' (is_fence l))
            = imap ((fun k l0 => record_at
                       (xorb b' (in_block (take k (l :: lines)))) (i + k) l0)
                    ∘ S) lines) as E.
  { intros b'. rewrite IH. apply imap_ext. intros k x _. simpl.
    rewrite in_block_cons, xorb_assoc. f_equal. lia. }
  cbn [analyze_from imap take]. rewrite <- E.
  unfold record_at, in_block. simpl. rewrite xorb_false_r, Nat.add_0_r.
  by destruct (is_fence l), b.
Qed.

(** X2. The fence state of report mode is the parity of the fence
    lines read so far: line k is a fence line that opens a block when
    an even number of fence lines precede it and closes one when an
    odd number does; any other line is fence content, whatever its
    shape, when an odd number of fence lines precede it, and is
    classified by its own shape otherwise. *)
Theorem analyze_structure_by_fence_parity (body : str) :
  analyze_structure body
  = imap (fun k l => record_at (in_block (take k (split body))) k l)
         (split body).
Proof.
  unfold analyze_structure. rewrite analyze_from_closed_form.
  apply imap_ext. intros k x _. simpl. by destruct (in_block _).
Qed.

End ParsersAgree.

(** *** What a record says about its line *)

Section ParseSound.

Import Re SyncFix.

Lemma sp_text_decompose r t :
  sp_text r = Some t ->
  exists sep tail,
    r = sep ++ t ++ tail /\ sep <> []
    /\ Forall (fun c => isspace c = true) sep
    /\ (tail = [] \/ tail = [nl]) /\ t <> [] /\ (nl ∉ t).
Proof.
  revert t. induction r as [|c r IH]; intros t; simpl; [done|].
  destruct (isspace c) eqn:Hc; [|done].
  destruct (sp_text r) as [t'|] eqn:Hr.
  - intros [= <-]. destruct (IH t' eq_refl) as (sep & tail & -> & _ & Hsep & Ht).
    exists (c :: sep), tail. split_and!; [done|done|by constructor|apply Ht..].
  - intros Ht. destruct (text_end_spec _ _ Ht) as (Hne & Hnl & Hr').
    exists [c]. destruct Hr' as [->| ->].
    + exists []. rewrite app_nil_r.
      split_and!; [done|done|by constructor|by left|done..].
    + exists [nl]. split_and!; [done|done|by constructor|by right|done..].
Qed.

Lemma all_hash h :
  Forall (fun c => is_hash c = true) h -> h = times "#" (length h).
Proof.
  induction 1 as [|c h Hc _ IH]; [done|].
  unfold is_hash in Hc. apply Ascii.eqb_eq in Hc as ->.
  simpl. by rewrite IH at 1.
Qed.

Lemma heading_sound line level t :
  heading line = Some (level, t) ->
  1 <= level <= 6
  /\ exists sep tail,
       line = times "#" level ++ sep ++ t ++ tail
       /\ sep <> [] /\ Forall (fun c => isspace c = true) sep
       /\ (tail = [] \/ tail = [nl]) /\ t <> [] /\ (nl ∉ t).
Proof.
  unfold heading. destruct (span is_hash line) as [h r] eqn:Hh.
  destruct (span_spec _ _ _ _ Hh) as (-> & Hall & _).
  destruct ((1 <=? length h) && (length h <=? 6)) eqn:Hlen; [|done].
  apply andb_true_iff in Hlen as [H1%Nat.leb_le H6%Nat.leb_le].
  destruct (sp_text r) as [t'|] eqn:Hr; [|done]. intros [= <- <-].
  destruct (sp_text_decompose _ _ Hr) as (sep & tail & -> & Hrest).
  split; [done|]. exists sep, tail. split; [|done].
  by rewrite (all_hash _ Hall) at 1.
Qed.

Lemma numbered_sound line ws ds t :
  numbered line = Some (ws, ds, t) ->
  ds <> [] /\ Forall (fun c => isdigit c = true) ds
  /\ Forall (fun c => isspace c = true) ws
  /\ exists sep tail,
       line = ws ++ ds ++ "."%char :: sep ++ t ++ tail
       /\ sep <> [] /\ Forall (fun c => isspace c = true) sep
       /\ (tail = [] \/ tail = [nl]) /\ t <> [] /\ (nl ∉ t).
Proof.
  unfold numbered. destruct (span isspace line) as [ws' r] eqn:Hws.
  destruct (span_spec _ _ _ _ Hws) as (-> & Hwall & _).
  destruct (span isdigit r) as [ds' r2] eqn:Hds.
  destruct (span_spec _ _ _ _ Hds) as (-> & Hdall & _).
  destruct ds' as [|d ds']; [done|]. destruct r2 as [|c r3]; [done|].
  destruct (Ascii.eqb_spec c ".") as [->|]; [|done].
  destruct (sp_text r3) as [t'|] eqn:Hr; [|done]. intros [= <- <- <-].
  destruct (sp_text_decompose _ _ Hr) as (sep & tail & -> & Hrest).
  split_and!; [done|done|done|]. by exists sep, tail.
Qed.

Lemma bullet_sound line ws b t :
  bullet line = Some (ws, b, t) ->
  is_bullet b = true /\ Forall (fun c => isspace c = true) ws
  /\ exists sep tail,
       line = ws ++ b :: sep ++ t ++ tail
       /\ sep <> [] /\ Forall (fun c => isspace c = true) sep
       /\ (tail = [] \/ tail = [nl]) /\ t <> [] /\ (nl ∉ t).
Proof.
  unfold bullet. destruct (span isspace line) as [ws' r] eqn:Hws.
  destruct (span_spec _ _ _ _ Hws) as (-> & Hwall & _).
  destruct r as [|c r2]; [done|]. destruct (is_bullet c) eqn:Hb; [|done].
  destruct (sp_text r2) as [t'|] eqn:Hr; [|done]. intros [= <- <- <-].
  destruct (sp_text_decompose _ _ Hr) as (sep & tail & -> & Hrest).
  split_and!; [done|done|]. by exists sep, tail.
Qed.

(** X3. Every record of [parse_line] is read off its line: the raw
    line is kept; a heading line is one to six marker characters, a
    separator of one or more space characters and the text; a
    numbered item is its indentation of space characters, a number of
    one or more digits, a period, a separator and the text; a bullet
    item is its indentation, one of the three bullets, a separator and
    the text.  The text is never empty and holds no newline; the line
    ends with it, or with one newline after it. *)
Theorem parse_line_sound (line : str) :
  match parse_line line with
  | PHeading level t o =>
      o = line /\ 1 <= level <= 6
      /\ exists sep tail,
           line = times "#" level ++ sep ++ t ++ tail
           /\ sep <> [] /\ Forall (fun c => isspace c = true) sep
           /\ (tail = [] \/ tail = [nl]) /\ t <> [] /\ (nl ∉ t)
  | PNumbered indent number t o =>
      o = line /\ number <> []
      /\ Forall (fun c => isdigit c = true) number
      /\ exists ws sep tail,
           line = ws ++ number ++ "."%char :: sep ++ t ++ tail
           /\ length ws = indent /\ Forall (fun c => isspace c = true) ws
           /\ sep <> [] /\ Forall (fun c => isspace c = true) sep
           /\ (tail = [] \/ tail = [nl]) /\ t <> [] /\ (nl ∉ t)
  | PBullet indent b t o =>
      o = line /\ is_bullet b = true
      /\ exists ws sep tail,
           line = ws ++ b :: sep ++ t ++ tail
           /\ length ws = indent /\ Forall (fun c => isspace c = true) ws
           /\ sep <> [] /\ Forall (fun c => isspace c = true) sep
           /\ (tail = [] \/ tail = [nl]) /\ t <> [] /\ (nl ∉ t)
  | POther o => o = line
  end.
Proof.
  unfold parse_line.
  destruct (heading line) as [[level t]|] eqn:Hh.
  { destruct (heading_sound _ _ _ Hh) as (Hl & Hdec).
    split; [done|]. by split. }
  destruct (numbered line) as [[[ws ds] t]|] eqn:Hn.
  { destruct (numbered_sound _ _ _ _ Hn)
      as (Hne & Hds & Hws & sep & tail & Hline & Hrest).
    do 3 (split; [done|]). exists ws, sep, tail.
    split; [done|]. split; [done|]. by split. }
  destruct (bullet line) as [[[ws b] t]|] eqn:Hb; [|done].
  destruct (bullet_sound _ _ _ _ Hb)
    as (Hbb & Hws & sep & tail & Hline & Hrest).
  do 2 (split; [done|]). exists ws, sep, tail.
  split; [done|]. split; [done|]. by split.
Qed.

End ParseSound.

(** *** What the aligner changes and what it leaves *)

Section AlignerFacts.

Import SyncFix.

(** X4. A target line that is none of heading, numbered item and
    bullet item is never changed: fix mode writes it back as it is, at
    its own position, whatever the source holds. *)
Theorem plain_lines_are_copied
    (id_lines en_lines : list str) (i : nat) (l : str) :
  en_lines !! i = Some l ->
  ptype (parse_line l) = k_other ->
  new_en_lines (align (map parse_line id_lines) (map parse_line en_lines)) !! i
  = Some l.
Proof.
  intros Hl Hk.
  pose proof (align_marker_text id_lines en_lines) as H.
  apply (f_equal (fun ls => ls !! i)) in H.
  change (map ?f ?ls) with (f <$> ls) in H.
  rewrite !list_lookup_fmap, Hl in H. simpl in H.
  destruct (new_en_lines _ !! i) as [o|]; [|done].
  simpl in H. injection H as H. f_equal.
  pose proof (parse_line_original o) as Ho.
  pose proof (parse_line_original l) as Hl'.
  destruct (parse_line l); try done.
  destruct (parse_line o); try done.
  simpl in *. congruence.
Qed.

Lemma plain_lines_are_copied_witness :
  let id_lines := [lit "# Judul"; lit "## Bagian"] in
  let en_lines := [lit "Some prose."; lit "### Part"] in
  (en_lines !! 0 = Some (lit "Some prose.")
   /\ ptype (parse_line (lit "Some prose.")) = k_other)
  /\ new_en_lines (align (map parse_line id_lines)
                         (map parse_line en_lines)) !! 0
     = Some (lit "Some prose.").
Proof.
  intros id_lines en_lines.
  assert (en_lines !! 0 = Some (lit "Some prose.")) as H1 by reflexivity.
  assert (ptype (parse_line (lit "Some prose.")) = k_other) as H2
    by reflexivity.
  split; [by split|].
  exact (plain_lines_are_copied id_lines en_lines 0 (lit "Some prose.") H1 H2).
Defined.

Lemma step_changes s t st :
  changes_made (step s t st) = changes_made st || negb (agree s t).
Proof.
  destruct s, t; simpl; rewrite ?orb_false_r; try done;
    case_decide;
    match goal with |- context [?a =? ?b] => destruct (Nat.eqb_spec a b) end;
    try done; by rewrite ?orb_true_r, ?orb_false_r.
Qed.

Lemma agree_walk_nil ens : agree_walk ens [] = true.
Proof. by destruct ens. Qed.

Lemma walk_changes ens : forall ids st,
  changes_made (walk ens ids st)
  = changes_made st || negb (agree_walk ens ids).
Proof.
  induction ens as [|t ens IH]; intros ids st.
  - simpl. by rewrite orb_false_r.
  - destruct ids as [|s ids].
    + cbn [walk]. rewrite IH, agree_walk_nil. simpl. done.
    + rewrite walk_cons, IH, step_changes. cbn [agree_walk].
      destruct (changes_made st), (agree s t), (agree_walk _ _); done.
Qed.

Lemma outs_nil ens : outs ens [] = map original ens.
Proof. induction ens as [|t ens IH]; simpl; by rewrite ?IH. Qed.

Lemma outs_same_iff (en_lines : list str) : forall id_lines : list str,
  outs (map parse_line en_lines) (map parse_line id_lines) = en_lines
  <-> agree_walk (map parse_line en_lines) (map parse_line id_lines) = true.
Proof.
  induction en_lines as [|el en_lines IH]; intros [|il id_lines]; try done.
  - rewrite agree_walk_nil, outs_nil. split; [done|]. intros _.
    exact (map_original_parse (el :: en_lines)).
  - cbn [map outs agree_walk]. rewrite andb_true_iff.
    set (ids' := if decide (ptype (parse_line il) = ptype (parse_line el))
                 then map parse_line id_lines
                 else parse_line il :: map parse_line id_lines).
    assert (outs (map parse_line en_lines) ids' = en_lines
            <-> agree_walk (map parse_line en_lines) ids' = true) as IH'.
    { subst ids'. destruct (decide _); [apply IH | apply (IH (il :: id_lines))]. }
    destruct (step_reparse il el init) as (l & Hl & _ & Hd).
    rewrite step_emitted in Hl. apply app_inj_tail in Hl as [_ Hl].
    split.
    + intros [= He Ht]. split; [|by apply IH'].
      apply agree_of_depth. intros Hm. rewrite <- (Hd Hm), <- Hl, He. done.
    + intros [Ha Ht]. f_equal; [|by apply IH'].
      destruct (step_agree _ _ init Ha) as (Hs & _ & _).
      rewrite step_emitted, parse_line_original in Hs.
      by apply app_inj_tail in Hs as [_ ->].
Qed.

(** X5. The change flag of fix mode is exact: it is set if and only if
    the lines produced differ from the lines of the target body, so a
    file is reported and rewritten only when its content changes. *)
Theorem changes_made_iff_lines_differ (id_lines en_lines : list str) :
  changes_made (align (map parse_line id_lines) (map parse_line en_lines))
    = true
  <-> new_en_lines (align (map parse_line id_lines)
                          (map parse_line en_lines)) <> en_lines.
Proof.
  rewrite align_outs, walk_align, walk_changes. simpl.
  rewrite negb_true_iff, <- not_true_iff_false.
  by rewrite outs_same_iff.
Qed.

Lemma align_parsed_length (id_lines en_lines : list str) :
  length (new_en_lines (align (map parse_line id_lines)
                              (map parse_line en_lines)))
  = length en_lines.
Proof.
  pose proof (align_marker_text id_lines en_lines) as H.
  apply (f_equal length) in H. by rewrite !length_map in H.
Qed.

(** X6. Fix mode is idempotent on bodies: when the lines it produced
    are joined into a body and that body is fixed again against the
    same source, the second run produces the same lines, flags no
    change and prints nothing. *)
Theorem fix_mode_idempotent (id_body en_body : str) :
  let ids := map parse_line (split id_body) in
  let out := new_en_lines (align ids (map parse_line (split en_body))) in
  let again := align ids (map parse_line (split (join out))) in
  new_en_lines again = out /\ changes_made again = false
  /\ printed again = [].
Proof.
  intros ids out again. subst again.
  assert (split (join out) = out) as ->.
  { apply split_join.
    - intros E. pose proof (align_parsed_length (split id_body) (split en_body))
        as Hlen. fold ids in Hlen. fold out in Hlen. rewrite E in Hlen.
      pose proof (split_nonempty en_body). by destruct (split en_body).
    - apply align_no_nl, split_no_nl. }
  apply (fix_twice (split id_body) (split en_body)).
Qed.

(** X7. The cursors of the alignment loop stay ordered: after any
    number of iterations the source cursor is not past the target
    cursor, the target cursor is not past the end of the target
    records and the source cursor is not past the end of the source
    records; so a source record is only ever paired with a target
    record at its own position or later. *)
Theorem cursors_stay_ordered (id_parsed en_parsed : list parsed) (fuel : nat) :
  let st := while id_parsed en_parsed fuel init in
  id_idx st <= en_idx st /\ en_idx st <= length en_parsed
  /\ id_idx st <= length id_parsed.
Proof.
  assert (forall fuel st,
    id_idx st <= en_idx st /\ en_idx st <= length en_parsed
    /\ id_idx st <= length id_parsed ->
    let st' := while id_parsed en_parsed fuel st in
    id_idx st' <= en_idx st' /\ en_idx st' <= length en_parsed
    /\ id_idx st' <= length id_parsed) as H.
  { clear fuel. induction fuel as [|fuel IH]; intros st Hst; simpl; [done|].
    destruct (in_range id_parsed en_parsed st) eqn:Hr; [|done].
    destruct (in_range_lookup _ _ _ Hr) as (s & t & Hs & Ht).
    apply IH. rewrite (iterate_step _ _ _ _ _ Hs Ht), step_en_idx.
    apply lookup_lt_Some in Hs, Ht.
    destruct (step_id_idx s t st) as [-> | ->]; lia. }
  apply H. simpl. lia.
Qed.


End AlignerFacts.

(** *** What fix mode writes *)

Section Writes.

Import SyncFix.

Lemma suffix_of_spec nm :
  nm = take (length nm - length (suffix_of nm)) nm ++ suffix_of nm
  /\ (suffix_of nm = []
      \/ exists ext, suffix_of nm = "."%char :: ext /\ "."%char ∉ ext).
Proof.
  unfold suffix_of.
  destruct (span (fun c => negb (Ascii.eqb c ".")) (reverse nm))
    as [ext_rev rest] eqn:Hsp.
  destruct (span_spec _ _ _ _ Hsp) as (Hrev & Hext & Hrest).
  assert (nm = take (length nm - length (@nil ascii)) nm ++ []
          /\ (@nil ascii = []
              \/ exists ext, @nil ascii = "."%char :: ext /\ "."%char ∉ ext))
    as Hnone.
  { split; [|by left]. simpl. by rewrite Nat.sub_0_r, firstn_all, app_nil_r. }
  destruct rest as [|d [|s stem_rev]]; [done|by destruct ext_rev|].
  destruct ext_rev as [|e ext_rev]; [done|].
  destruct (Ascii.eqb_spec d ".") as [->|]; [|done].
  assert (nm = reverse (s :: stem_rev) ++ "."%char :: reverse (e :: ext_rev))
    as Hnm.
  { rewrite <- (reverse_involutive nm), Hrev, reverse_app.
    rewrite (reverse_cons (s :: stem_rev) "."%char), <- app_assoc. done. }
  split.
  - rewrite Hnm at 1 2 3. rewrite length_app. cbn [length].
    replace (length (reverse (s :: stem_rev))
             + S (length (reverse (e :: ext_rev)))
             - S (length (reverse (e :: ext_rev))))
      with (length (reverse (s :: stem_rev)) + 0) by lia.
    by rewrite take_app_add, take_0, app_nil_r.
  - right. eexists. split; [done|]. rewrite elem_of_reverse.
    intros Hin. rewrite Forall_forall in Hext. specialize (Hext _ Hin).
    by rewrite Ascii.eqb_refl in Hext.
Qed.

Lemma backup_name_differs nm :
  take (length nm - length (suffix_of nm)) nm ++ lit ".mdx.bak" <> nm.
Proof.
  destruct (suffix_of_spec nm) as (Hnm & Hsuf). intros E.
  set (stem := take (length nm - length (suffix_of nm)) nm) in *.
  assert (stem ++ lit ".mdx.bak" = stem ++ suffix_of nm) as E'
    by (by rewrite E).
  clear E. apply app_inv_head in E'. symmetry in E'. rename E' into E.
  destruct Hsuf as [Hs|(ext & Hs & Hdot)]; rewrite Hs in E; [done|].
  injection E as ->. apply Hdot. unfold lit. simpl.
  rewrite !elem_of_cons. auto.
Qed.

Lemma backup_path_differs (p : path) : with_suffix p (lit ".mdx.bak") <> p.
Proof.
  unfold with_suffix, name. destruct p as [|x p] using rev_ind; [done|].
  rewrite last_last, removelast_last. intros E.
  apply app_inv_head in E. injection E as E.
  by apply (backup_name_differs x).
Qed.

(** [sync_file] touches the file system only when it runs with
    [dry_run] off and finds a change; its verdict does not depend on
    [dry_run]. *)
Lemma sync_file_no_write
    (fs fs' : filesystem) (id_file en_file : path) (dry_run flag : bool)
    (out : list event) :
  sync_file fs id_file en_file dry_run = Some (flag, fs', out) ->
  (dry_run = true \/ flag = false -> fs' = fs)
  /\ exists fs2 out2,
       sync_file fs id_file en_file (negb dry_run) = Some (flag, fs2, out2).
Proof.
  unfold sync_file. destruct (decide (fs !! en_file = None)) as [|_].
  { intros [= <- <- <-]. split; [done|]. eauto. }
  destruct (fs !! id_file) as [id_content|]; [|done].
  destruct (fs !! en_file) as [en_content|]; [|done]. simpl.
  destruct (extract_frontmatter id_content) as [id_fm id_body].
  destruct (extract_frontmatter en_content) as [en_fm en_body].
  destruct (changes_made _).
  - destruct dry_run; simpl; intros [= <- <- <-].
    + split; [done|]. eauto.
    + split; [by intros [|]|]. eauto.
  - intros [= <- <- <-]. split; [done|]. eauto.
Qed.

Lemma agree_refl s : agree s s = true.
Proof. destruct s; simpl; by rewrite ?Nat.eqb_refl. Qed.

Lemma agree_walk_refl ps : agree_walk ps ps = true.
Proof.
  induction ps as [|s ps IH]; [done|]. cbn [agree_walk].
  by rewrite agree_refl, decide_True, IH.
Qed.

(** A document aligned against itself changes nothing. *)
Lemma align_self_unchanged ps : changes_made (align ps ps) = false.
Proof. by rewrite walk_align, walk_changes, agree_walk_refl. Qed.

(** X8. When [sync_file] runs with [dry_run] off and finds a change,
    the source and the target are two files; the backup file gets the
    old text of the target file and is a file other than the target;
    the target file gets its own front matter, a newline and the
    produced lines joined by newlines; and every file at a path other
    than the target's and the backup's is as it was.  So the source
    file is as it was unless its path is the backup's path, where the
    copy overwrites it with the old text of the target. *)
Theorem sync_file_apply_frame
    (fs fs' : filesystem) (id_file en_file : path) (out : list event) :
  sync_file fs id_file en_file false = Some (true, fs', out) ->
  exists id_content en_content,
    fs !! id_file = Some id_content /\ fs !! en_file = Some en_content
    /\ id_file <> en_file
    /\ with_suffix en_file (lit ".mdx.bak") <> en_file
    /\ fs' !! with_suffix en_file (lit ".mdx.bak") = Some en_content
    /\ fs' !! en_file
       = Some ((extract_frontmatter en_content).1 ++ nl
               :: join (new_en_lines
                    (align
                       (map parse_line
                          (split (extract_frontmatter id_content).2))
                       (map parse_line
                          (split (extract_frontmatter en_content).2)))))
    /\ (forall p, p <> en_file -> p <> with_suffix en_file (lit ".mdx.bak") ->
                  fs' !! p = fs !! p)
    /\ (id_file <> with_suffix en_file (lit ".mdx.bak") ->
        fs' !! id_file = Some id_content)
    /\ (id_file = with_suffix en_file (lit ".mdx.bak") ->
        fs' !! id_file = Some en_content).
Proof.
  unfold sync_file. destruct (decide (fs !! en_file = None)) as [|_]; [done|].
  destruct (fs !! id_file) as [id_content|] eqn:Hid; [|done].
  destruct (fs !! en_file) as [en_content|] eqn:Hen; [|done]. simpl.
  destruct (extract_frontmatter id_content) as [id_fm id_body] eqn:Eid.
  destruct (extract_frontmatter en_content) as [en_fm en_body] eqn:Een.
  destruct (changes_made _) eqn:Hch; [|done]. simpl.
  intros [= <- <-]. exists id_content, en_content. rewrite Eid, Een.
  pose proof (backup_path_differs en_file) as Hne.
  assert (id_file <> en_file) as Hsrc.
  { intros ->. rewrite Hid in Hen. injection Hen as ->.
    rewrite Eid in Een. injection Een as _ ->.
    by rewrite align_self_unchanged in Hch. }
  assert (<[with_suffix en_file (lit ".mdx.bak") := en_content]> fs
          !! with_suffix en_file (lit ".mdx.bak") = Some en_content) as Hb
    by apply lookup_insert_eq.
  split_and!; [done|done|done|done| | | | |].
  - by rewrite lookup_insert_ne by (intros E; by apply Hne).
  - apply lookup_insert_eq.
  - intros p Hp Hp'.
    rewrite lookup_insert_ne by (intros E; by apply Hp).
    by rewrite lookup_insert_ne by (intros E; by apply Hp').
  - intros Hp'.
    rewrite lookup_insert_ne by (intros E; by apply Hsrc).
    by rewrite lookup_insert_ne by (intros E; by apply Hp').
  - intros ->. by rewrite lookup_insert_ne by (intros E; by apply Hne).
Qed.

Lemma sync_file_apply_frame_witness :
  let id_file := [lit "id"; lit "login.mdx"] in
  let en_file := [lit "en"; lit "login.mdx"] in
  let fs : filesystem :=
    <[id_file := lit "## Masuk"]> {[en_file := lit "### Login"]} in
  exists fs' out,
    sync_file fs id_file en_file false = Some (true, fs', out)
    /\ exists id_content en_content,
         fs !! id_file = Some id_content /\ fs !! en_file = Some en_content
         /\ id_file <> en_file
         /\ with_suffix en_file (lit ".mdx.bak") <> en_file
         /\ fs' !! with_suffix en_file (lit ".mdx.bak") = Some en_content
         /\ fs' !! en_file
            = Some ((extract_frontmatter en_content).1 ++ nl
                    :: join (new_en_lines
                         (align
                            (map parse_line
                               (split (extract_frontmatter id_content).2))
                            (map parse_line
                               (split (extract_frontmatter en_content).2)))))
         /\ (forall p, p <> en_file ->
                       p <> with_suffix en_file (lit ".mdx.bak") ->
                       fs' !! p = fs !! p)
         /\ (id_file <> with_suffix en_file (lit ".mdx.bak") ->
             fs' !! id_file = Some id_content)
         /\ (id_file = with_suffix en_file (lit ".mdx.bak") ->
             fs' !! id_file = Some en_content).
Proof.
  intros id_file en_file fs.
  destruct (sync_file fs id_file en_file false) as [[[flag fs'] out]|] eqn:H.
  2:{ exfalso. revert H. unfold sync_file.
      rewrite decide_False by (by vm_compute).
      replace (fs !! id_file) with (Some (lit "## Masuk")) by (by vm_compute).
      replace (fs !! en_file) with (Some (lit "### Login")) by (by vm_compute).
      discriminate. }
  assert (flag = true) as ->.
  { revert H. unfold sync_file.
    rewrite decide_False by (by vm_compute).
    replace (fs !! id_file) with (Some (lit "## Masuk")) by (by vm_compute).
    replace (fs !! en_file) with (Some (lit "### Login")) by (by vm_compute).
    simpl. by intros [= <- _ _]. }
  exists fs', out. split; [reflexivity|].
  exact (sync_file_apply_frame fs fs' id_file en_file out H).
Defined.

End Writes.

(** *** A whole run *)

Section Runs.

Import SyncFix.

Lemma sync_file_frame
    (fs fs' : filesystem) (id_file en_file : path) (dry_run flag : bool)
    (out : list event) :
  sync_file fs id_file en_file dry_run = Some (flag, fs', out) ->
  (forall p, p <> en_file -> p <> with_suffix en_file (lit ".mdx.bak") ->
             fs' !! p = fs !! p)
  /\ (forall p, is_Some (fs !! p) -> is_Some (fs' !! p)).
Proof.
  unfold sync_file. destruct (decide (fs !! en_file = None)) as [|_].
  { by intros [= <- <- <-]. }
  destruct (fs !! id_file) as [id_content|]; [|done].
  destruct (fs !! en_file) as [en_content|]; [|done]. simpl.
  destruct (extract_frontmatter id_content) as [id_fm id_body].
  destruct (extract_frontmatter en_content) as [en_fm en_body].
  destruct (changes_made _); [|by intros [= <- <- <-]].
  destruct dry_run; simpl; intros [= <- <- <-]; [done|].
  split.
  - intros p Hp Hb.
    rewrite lookup_insert_ne by (intros E; by apply Hp).
    by rewrite lookup_insert_ne by (intros E; by apply Hb).
  - intros p Hp. rewrite !lookup_insert_is_Some'. auto.
Qed.

Lemma en_not_under_id (base x q : path) :
  en_dir_of base ++ x <> id_dir_of base ++ q.
Proof.
  unfold en_dir_of, id_dir_of. rewrite <- !app_assoc.
  intros E%app_inv_head. by vm_compute in E.
Qed.

Lemma backup_not_under_id (base x q : path) :
  with_suffix (en_dir_of base ++ x) (lit ".mdx.bak") <> id_dir_of base ++ q.
Proof.
  unfold with_suffix, name. destruct x as [|n x _] using rev_ind.
  - rewrite app_nil_r. unfold en_dir_of, id_dir_of.
    change (base ++ [lit "content"; lit "docs"; lit "en"])
      with (base ++ [lit "content"; lit "docs"] ++ [lit "en"]).
    rewrite (app_assoc base), last_last, removelast_last, <- !app_assoc.
    intros E%app_inv_head. by vm_compute in E.
  - rewrite (app_assoc _ x), last_last, removelast_last.
    unfold en_dir_of, id_dir_of. rewrite <- !app_assoc.
    intros E%app_inv_head. by vm_compute in E.
Qed.

Lemma main_step_frame base dry_run id_file r r' :
  main_step (id_dir_of base) (en_dir_of base) dry_run id_file r = Some r' ->
  (forall q, run_fs r' !! (id_dir_of base ++ q)
             = run_fs r !! (id_dir_of base ++ q))
  /\ (forall p, is_Some (run_fs r !! p) -> is_Some (run_fs r' !! p)).
Proof.
  unfold main_step.
  destruct (relative_to id_file (id_dir_of base)) as [rel|]; [|done]. simpl.
  destruct (sync_file _ _ _ _) as [[[flag fs'] out]|] eqn:Hs; [|done].
  destruct (sync_file_frame _ _ _ _ _ _ _ Hs) as [Hframe Hkeep].
  assert (forall q, fs' !! (id_dir_of base ++ q)
                    = run_fs r !! (id_dir_of base ++ q)) as Hsrc.
  { intros q. apply Hframe.
    - intros E. symmetry in E. by apply en_not_under_id in E.
    - intros E. symmetry in E. by apply backup_not_under_id in E. }
  simpl. destruct flag; [|destruct (decide _)]; by intros [= <-].
Qed.

Lemma main_loop_frame base dry_run id_files : forall r r',
  main_loop (id_dir_of base) (en_dir_of base) dry_run id_files r = Some r' ->
  (forall q, run_fs r' !! (id_dir_of base ++ q)
             = run_fs r !! (id_dir_of base ++ q))
  /\ (forall p, is_Some (run_fs r !! p) -> is_Some (run_fs r' !! p)).
Proof.
  induction id_files as [|f id_files IH]; intros r r'; simpl.
  - by intros [= <-].
  - destruct (main_step _ _ _ _ _) as [r1|] eqn:H1; [|done]. simpl.
    intros H2. destruct (main_step_frame _ _ _ _ _ H1) as [Ha Hb].
    destruct (IH _ _ H2) as [Hc Hd]. split.
    + intros q. by rewrite Hc, Ha.
    + intros p Hp. by apply Hd, Hb.
Qed.

(** X9. A run of fix mode never writes into the source tree and never
    removes a file: after [main], with or without [--apply], every
    path under the source directory holds what it held before, and
    every file that was there is still there. *)
Theorem fix_mode_keeps_source_tree
    (fs : filesystem) (base_dir : path) (argv : list str)
    (id_files : list path) (r : run) :
  main fs base_dir argv id_files = Some r ->
  (forall q, run_fs r !! (id_dir_of base_dir ++ q)
             = fs !! (id_dir_of base_dir ++ q))
  /\ (forall p, is_Some (fs !! p) -> is_Some (run_fs r !! p)).
Proof.
  unfold main.
  destruct (main_loop _ _ _ _ _) as [r1|] eqn:H; [|done]. simpl.
  intros [= <-]. simpl. apply (main_loop_frame base_dir) in H. exact H.
Qed.

Lemma main_loop_dry_run id_dir en_dir id_files : forall r r',
  main_loop id_dir en_dir true id_files r = Some r' -> run_fs r' = run_fs r.
Proof.
  induction id_files as [|f id_files IH]; intros r r'; simpl.
  - by intros [= <-].
  - destruct (main_step _ _ _ _ _) as [r1|] eqn:H1; [|done]. simpl.
    intros H2. rewrite (IH _ _ H2). clear H2 IH. revert H1.
    unfold main_step.
    destruct (relative_to f id_dir) as [rel|]; [|done]. simpl.
    destruct (sync_file _ _ _ _) as [[[flag fs'] out]|] eqn:Hs; [|done].
    destruct (sync_file_no_write _ _ _ _ _ _ _ Hs) as [Hfs _].
    rewrite (Hfs (or_introl eq_refl)). simpl.
    destruct flag; [|destruct (decide _)]; by intros [= <-].
Qed.

(** X10. A dry run changes nothing: when [--apply] is not among the
    arguments, the file system after [main] is the file system before
    it, whatever the documents hold. *)
Theorem dry_run_changes_nothing
    (fs : filesystem) (base_dir : path) (argv : list str)
    (id_files : list path) (r : run) :
  lit "--apply" ∉ argv ->
  main fs base_dir argv id_files = Some r ->
  run_fs r = fs.
Proof.
  intros Hargv. unfold main. rewrite bool_decide_eq_false_2 by done.
  cbn [negb].
  destruct (main_loop _ _ _ _ _) as [r1|] eqn:H; [|done]. simpl.
  intros [= <-]. simpl. by apply main_loop_dry_run in H.
Qed.

Lemma main_step_counts id_dir en_dir dry_run id_file r r' :
  main_step id_dir en_dir dry_run id_file r = Some r' ->
  total (run_stats r') = total (run_stats r) + 1
  /\ updated (run_stats r') + skipped (run_stats r')
     + no_change (run_stats r')
     = updated (run_stats r) + skipped (run_stats r)
       + no_change (run_stats r) + 1.
Proof.
  unfold main_step.
  destruct (relative_to id_file id_dir) as [rel|]; [|done]. simpl.
  destruct (sync_file _ _ _ _) as [[[flag fs'] out]|]; [|done]. simpl.
  destruct flag; [|destruct (decide _)]; intros [= <-]; simpl; lia.
Qed.

Lemma main_loop_counts id_dir en_dir dry_run id_files : forall r r',
  main_loop id_dir en_dir dry_run id_files r = Some r' ->
  total (run_stats r') = total (run_stats r) + length id_files
  /\ updated (run_stats r') + skipped (run_stats r')
     + no_change (run_stats r')
     = updated (run_stats r) + skipped (run_stats r)
       + no_change (run_stats r) + length id_files.
Proof.
  induction id_files as [|f id_files IH]; intros r r'; simpl.
  - intros [= <-]. lia.
  - destruct (main_step _ _ _ _ _) as [r1|] eqn:H1; [|done]. simpl.
    intros H2. apply main_step_counts in H1. apply IH in H2. lia.
Qed.

(** X11. The counters of a run of fix mode add up: the total is the
    number of source files, and every file is counted once, as
    updated, as skipped or as unchanged. *)
Theorem fix_mode_counters_add_up
    (fs : filesystem) (base_dir : path) (argv : list str)
    (id_files : list path) (r : run) :
  main fs base_dir argv id_files = Some r ->
  total (run_stats r) = length id_files
  /\ updated (run_stats r) + skipped (run_stats r) + no_change (run_stats r)
     = length id_files.
Proof.
  unfold main.
  destruct (main_loop _ _ _ _ _) as [r1|] eqn:H; [|done]. simpl.
  intros [= <-]. simpl. apply main_loop_counts in H. simpl in H. lia.
Qed.

Lemma report_step_counts fs id_dir en_dir id_file
    (r r' : SyncTranslations.run) :
  SyncTranslations.main_step fs id_dir en_dir id_file r = Some r' ->
  SyncTranslations.total (SyncTranslations.run_stats r')
    = SyncTranslations.total (SyncTranslations.run_stats r)
  /\ SyncTranslations.matched (SyncTranslations.run_stats r')
     + SyncTranslations.missing (SyncTranslations.run_stats r')
     + SyncTranslations.mismatched (SyncTranslations.run_stats r')
     = SyncTranslations.matched (SyncTranslations.run_stats r)
       + SyncTranslations.missing (SyncTranslations.run_stats r)
       + SyncTranslations.mismatched (SyncTranslations.run_stats r) + 1
  /\ length (SyncTranslations.reports r')
     = length (SyncTranslations.reports r) + 1
  /\ length (SyncTranslations.files_with_issues r')
     + SyncTranslations.matched (SyncTranslations.run_stats r')
     = length (SyncTranslations.files_with_issues r)
       + SyncTranslations.matched (SyncTranslations.run_stats r) + 1.
Proof.
  unfold SyncTranslations.main_step.
  destruct (relative_to id_file id_dir) as [rel|]; [|done]. simpl.
  destruct (SyncTranslations.generate_report _ _ _ _ _) as [[rep issues]|];
    [|done]. simpl.
  destruct (decide _); [|destruct issues]; intros [= <-]; simpl;
    rewrite ?length_app; simpl; lia.
Qed.

Lemma report_loop_counts fs id_dir en_dir id_files :
  forall r r' : SyncTranslations.run,
  SyncTranslations.main_loop fs id_dir en_dir id_files r = Some r' ->
  SyncTranslations.total (SyncTranslations.run_stats r')
    = SyncTranslations.total (SyncTranslations.run_stats r)
  /\ SyncTranslations.matched (SyncTranslations.run_stats r')
     + SyncTranslations.missing (SyncTranslations.run_stats r')
     + SyncTranslations.mismatched (SyncTranslations.run_stats r')
     = SyncTranslations.matched (SyncTranslations.run_stats r)
       + SyncTranslations.missing (SyncTranslations.run_stats r)
       + SyncTranslations.mismatched (SyncTranslations.run_stats r)
       + length id_files
  /\ length (SyncTranslations.reports r')
     = length (SyncTranslations.reports r) + length id_files
  /\ length (SyncTranslations.files_with_issues r')
     + SyncTranslations.matched (SyncTranslations.run_stats r')
     = length (SyncTranslations.files_with_issues r)
       + SyncTranslations.matched (SyncTranslations.run_stats r)
       + length id_files.
Proof.
  induction id_files as [|f id_files IH]; intros r r'; simpl.
  - intros [= <-]. lia.
  - destruct (SyncTranslations.main_step _ _ _ _ _) as [r1|] eqn:H1; [|done].
    simpl. intros H2. apply report_step_counts in H1. apply IH in H2. lia.
Qed.

(** X12. The counters of a run of report mode add up: the total is the
    number of source files; every file is counted once, as matched, as
    missing or as mismatched; there is one report per file; and the
    files listed as needing attention are as many as the missing and
    the mismatched ones together. *)
Theorem report_mode_counters_add_up
    (fs : filesystem) (base_dir : path) (id_files : list path)
    (r : SyncTranslations.run) :
  SyncTranslations.main fs base_dir id_files = Some r ->
  let st := SyncTranslations.run_stats r in
  SyncTranslations.total st = length id_files
  /\ SyncTranslations.matched st + SyncTranslations.missing st
     + SyncTranslations.mismatched st = length id_files
  /\ length (SyncTranslations.reports r) = length id_files
  /\ length (SyncTranslations.files_with_issues r)
     = SyncTranslations.missing st + SyncTranslations.mismatched st.
Proof.
  unfold SyncTranslations.main. intros H%report_loop_counts.
  simpl in *. lia.
Qed.

End Runs.

Section RunInstances.

Import SyncFix.

Lemma fix_mode_keeps_source_tree_witness :
  let id_file := id_dir_of [] ++ [lit "login.mdx"] in
  let en_file := en_dir_of [] ++ [lit "login.mdx"] in
  let fs : filesystem :=
    <[id_file := lit "## Masuk"]> {[en_file := lit "### Login"]} in
  let argv := [lit "sync_fix.py"; lit "--apply"] in
  exists r,
    main fs [] argv [id_file] = Some r
    /\ (forall q, run_fs r !! (id_dir_of [] ++ q)
                  = fs !! (id_dir_of [] ++ q))
    /\ (forall p, is_Some (fs !! p) -> is_Some (run_fs r !! p)).
Proof.
  intros id_file en_file fs argv.
  assert (is_Some (main fs [] argv [id_file])) as [r H]
    by (refine (bool_decide_unpack _ _); vm_compute; exact I).
  exists r. split; [exact H|].
  exact (fix_mode_keeps_source_tree fs [] argv [id_file] r H).
Defined.

Lemma dry_run_changes_nothing_witness :
  let id_file := id_dir_of [] ++ [lit "login.mdx"] in
  let en_file := en_dir_of [] ++ [lit "login.mdx"] in
  let fs : filesystem :=
    <[id_file := lit "## Masuk"]> {[en_file := lit "### Login"]} in
  let argv := [lit "sync_fix.py"] in
  exists r,
    ((lit "--apply" ∉ argv) /\ main fs [] argv [id_file] = Some r)
    /\ run_fs r = fs.
Proof.
  intros id_file en_file fs argv.
  assert (lit "--apply" ∉ argv) as H0
    by (refine (bool_decide_unpack _ _); vm_compute; exact I).
  assert (is_Some (main fs [] argv [id_file])) as [r H]
    by (refine (bool_decide_unpack _ _); vm_compute; exact I).
  exists r. split; [by split|].
  exact (dry_run_changes_nothing fs [] argv [id_file] r H0 H).
Defined.

Lemma fix_mode_counters_add_up_witness :
  let id_a := id_dir_of [] ++ [lit "login.mdx"] in
  let id_b := id_dir_of [] ++ [lit "tugas.mdx"] in
  let en_a := en_dir_of [] ++ [lit "login.mdx"] in
  let fs : filesystem :=
    <[id_a := lit "## Masuk"]>
      (<[id_b := lit "# Tugas"]> {[en_a := lit "### Login"]}) in
  exists r,
    main fs [] [lit "sync_fix.py"] [id_a; id_b] = Some r
    /\ total (run_stats r) = length [id_a; id_b]
    /\ updated (run_stats r) + skipped (run_stats r)
       + no_change (run_stats r) = length [id_a; id_b].
Proof.
  intros id_a id_b en_a fs.
  assert (is_Some (main fs [] [lit "sync_fix.py"] [id_a; id_b])) as [r H]
    by (refine (bool_decide_unpack _ _); vm_compute; exact I).
  exists r. split; [exact H|].
  exact (fix_mode_counters_add_up fs [] [lit "sync_fix.py"] [id_a; id_b] r H).
Defined.

Lemma report_mode_counters_add_up_witness :
  let id_a := id_dir_of [] ++ [lit "login.mdx"] in
  let id_b := id_dir_of [] ++ [lit "tugas.mdx"] in
  let en_a := en_dir_of [] ++ [lit "login.mdx"] in
  let fs : filesystem :=
    <[id_a := lit "## Masuk"]>
      (<[id_b := lit "# Tugas"]> {[en_a := lit "### Login"]}) in
  exists r,
    SyncTranslations.main fs [] [id_a; id_b] = Some r
    /\ SyncTranslations.total (SyncTranslations.run_stats r)
       = length [id_a; id_b]
    /\ SyncTranslations.matched (SyncTranslations.run_stats r)
       + SyncTranslations.missing (SyncTranslations.run_stats r)
       + SyncTranslations.mismatched (SyncTranslations.run_stats r)
       = length [id_a; id_b]
    /\ length (SyncTranslations.reports r) = length [id_a; id_b]
    /\ length (SyncTranslations.files_with_issues r)
       = SyncTranslations.missing (SyncTranslations.run_stats r)
         + SyncTranslations.mismatched (SyncTranslations.run_stats r).
Proof.
  intros id_a id_b en_a fs.
  assert (is_Some (SyncTranslations.main fs [] [id_a; id_b])) as [r H]
    by (refine (bool_decide_unpack _ _); vm_compute; exact I).
  exists r. split; [exact H|].
  exact (report_mode_counters_add_up fs [] [id_a; id_b] r H).
Defined.

End RunInstances.

(** *** When report mode finds nothing *)

Section ReportVerdict.

Import SyncTranslations.

Lemma level_warnings_nil (a : list element) : forall (b : list element) i,
  length a = length b ->
  (level_warnings i a b = [] <-> map elevel a = map elevel b).
Proof.
  induction a as [|x a IH]; intros [|y b] i Hlen; try done. simpl.
  injection Hlen as Hlen. destruct (decide (elevel x <> elevel y)) as [Hne|He].
  - split; [done|]. intros [= E _]. done.
  - apply dec_stable in He. rewrite (IH b (S i) Hlen), He.
    split; [by intros ->|by intros [= ->]].
Qed.

Lemma count_indent_zero (a : list element) : forall b : list element,
  length a = length b ->
  (count_indent_mismatches a b = 0 <-> map eindent a = map eindent b).
Proof.
  induction a as [|x a IH]; intros [|y b] Hlen; try done. simpl.
  injection Hlen as Hlen. destruct (decide (eindent x <> eindent y)) as [Hne|He].
  - split; [lia|]. intros [= E _]. done.
  - apply dec_stable in He. simpl. rewrite (IH b Hlen), He.
    split; [by intros ->|by intros [= ->]].
Qed.

Lemma compare_bodies_verdict
    (rel_path : path) (id_body en_body : str) :
  let id_headings :=
    filter (fun s => is_heading s = true) (analyze_structure id_body) in
  let en_headings :=
    filter (fun s => is_heading s = true) (analyze_structure en_body) in
  let id_lists :=
    filter (fun s => is_list s = true) (analyze_structure id_body) in
  let en_lists :=
    filter (fun s => is_list s = true) (analyze_structure en_body) in
  ((compare_bodies rel_path id_body en_body).2 = false
   <-> map elevel id_headings = map elevel en_headings
       /\ map eindent id_lists = map eindent en_lists)
  /\ ((compare_bodies rel_path id_body en_body).2 = false ->
      (compare_bodies rel_path id_body en_body).1
      = [RFile rel_path; RHeadingsOk (length id_headings);
         RListsOk (length id_lists)]).
Proof.
  intros idh enh idl enl. unfold compare_bodies.
  fold idh enh idl enl. cbn [fst snd].
  destruct (decide (length idh <> length enh)) as [Hh|Hh]; cbn [fst snd].
  { split; [|done]. split; [done|]. intros [E _].
    apply (f_equal length) in E. by rewrite !length_map in E. }
  apply dec_stable in Hh.
  destruct (decide (length idl <> length enl)) as [Hl|Hl]; cbn [fst snd].
  { rewrite orb_true_r. cbn [orb]. split; [|done]. split; [done|].
    intros [_ E]. apply (f_equal length) in E. by rewrite !length_map in E. }
  apply dec_stable in Hl.
  rewrite orb_false_r. cbn [orb].
  pose proof (level_warnings_nil idh enh 0 Hh) as Hlev.
  pose proof (count_indent_zero idl enl Hl) as Hind.
  destruct (count_indent_mismatches idl enl) as [|n] eqn:Hc.
  - cbn [Nat.ltb Nat.leb]. rewrite orb_false_r, negb_false_iff.
    rewrite bool_decide_eq_true. split.
    + rewrite Hlev. split; [intros E; split; [done|by apply Hind]|by intros []].
    + intros ->. by rewrite app_nil_r.
  - change (0 <? S n) with true. rewrite orb_true_r. split; [|done].
    split; [done|]. intros [_ E]. apply Hind in E. done.
Qed.

(** X13. Report mode finds no issue in a pair of bodies exactly when
    the headings outside code blocks have, in order, the same levels
    in both and the list items outside code blocks have, in order, the
    same indentations in both; the report is then the file line and
    the two OK lines with the two counts. *)
Theorem no_issues_iff_same_levels_and_indents
    (rel_path : path) (id_body en_body : str) :
  let id_headings :=
    filter (fun s => is_heading s = true) (analyze_structure id_body) in
  let en_headings :=
    filter (fun s => is_heading s = true) (analyze_structure en_body) in
  let id_lists :=
    filter (fun s => is_list s = true) (analyze_structure id_body) in
  let en_lists :=
    filter (fun s => is_list s = true) (analyze_structure en_body) in
  ((compare_bodies rel_path id_body en_body).2 = false
   <-> map elevel id_headings = map elevel en_headings
       /\ map eindent id_lists = map eindent en_lists)
  /\ ((compare_bodies rel_path id_body en_body).2 = false ->
      (compare_bodies rel_path id_body en_body).1
      = [RFile rel_path; RHeadingsOk (length id_headings);
         RListsOk (length id_lists)]).
Proof. apply compare_bodies_verdict. Qed.

End ReportVerdict.

(** *** Front matter that is closed *)

Section ClosedFrontMatter.

Lemma fm_scan_closed inner lc rest : forall i acc body_start,
  Forall (fun l => strip l <> lit "---") inner ->
  strip lc = lit "---" ->
  fm_scan (inner ++ lc :: rest) i acc body_start
  = (acc ++ inner ++ [lit "---"], i + length inner + 1).
Proof.
  induction inner as [|l inner IH]; intros i acc bs Hall Hc; simpl.
  - rewrite decide_True by done. f_equal. lia.
  - inversion Hall as [|? ? Hl Hall']; subst.
    rewrite decide_False by done. rewrite IH by done.
    rewrite <- app_assoc. f_equal. lia.
Qed.

Lemma extract_frontmatter_closed_lines content l0 inner lc rest :
  split content = l0 :: inner ++ lc :: rest ->
  strip l0 = lit "---" ->
  Forall (fun l => strip l <> lit "---") inner ->
  strip lc = lit "---" ->
  extract_frontmatter content
  = (join (lit "---" :: inner ++ [lit "---"]), join rest).
Proof.
  intros Hs H0 Hin Hc. unfold extract_frontmatter. rewrite Hs.
  rewrite decide_True by done. rewrite fm_scan_closed by done.
  f_equal. f_equal.
  replace (1 + length inner + 1) with (S (length inner + 1)) by lia.
  cbn [drop]. by rewrite drop_app_add.
Qed.

(** X14. Front matter that is opened and closed is cut off whole: when
    the first line of a document and a later line are delimiter lines,
    with no delimiter line between them, the front matter returned is
    the lines between the two with a line of three hyphens before and
    after, and the body is the lines after the closing delimiter;
    neither delimiter and no line between them is part of the body. *)
Theorem extract_frontmatter_closed
    (content l0 lc : str) (inner rest : list str) :
  split content = l0 :: inner ++ lc :: rest ->
  strip l0 = lit "---" ->
  Forall (fun l => strip l <> lit "---") inner ->
  strip lc = lit "---" ->
  extract_frontmatter content
  = (join (lit "---" :: inner ++ [lit "---"]), join rest).
Proof. apply extract_frontmatter_closed_lines. Qed.

Lemma extract_frontmatter_closed_witness :
  let content :=
    join [lit "--- "; lit "title: Login"; lit "---"; lit "# Login";
          lit "---"; lit "text"] in
  (split content
   = lit "--- " :: [lit "title: Login"] ++ lit "---"
       :: [lit "# Login"; lit "---"; lit "text"]
   /\ strip (lit "--- ") = lit "---"
   /\ Forall (fun l => strip l <> lit "---") [lit "title: Login"]
   /\ strip (lit "---") = lit "---")
  /\ extract_frontmatter content
     = (join (lit "---" :: [lit "title: Login"] ++ [lit "---"]),
        join [lit "# Login"; lit "---"; lit "text"]).
Proof.
  intros content.
  assert (split content
          = lit "--- " :: [lit "title: Login"] ++ lit "---"
              :: [lit "# Login"; lit "---"; lit "text"]) as H1
    by (by vm_compute).
  assert (strip (lit "--- ") = lit "---") as H2 by (by vm_compute).
  assert (Forall (fun l => strip l <> lit "---") [lit "title: Login"]) as H3
    by (refine (bool_decide_unpack _ _); vm_compute; exact I).
  assert (strip (lit "---") = lit "---") as H4 by (by vm_compute).
  split; [by split_and!|].
  exact (extract_frontmatter_closed content _ _ _ _ H1 H2 H3 H4).
Defined.

Lemma split_join_app ls s :
  ls <> [] -> Forall (fun l => nl ∉ l) ls ->
  split (join ls ++ nl :: s) = ls ++ split s.
Proof.
  induction ls as [|l ls IH]; [done|]. intros _ Hall.
  inversion Hall as [|? ? Hl Hls]; subst.
  destruct ls as [|l' ls].
  - simpl. by apply split_app_nl.
  - rewrite join_cons by done. rewrite <- app_assoc. cbn [app].
    rewrite split_app_nl by done. by rewrite IH.
Qed.

(** X15. Closed front matter survives a rewrite: the text fix mode
    writes, the front matter it cut off, a newline and a new body, is
    read back as that same front matter and that same body. *)
Theorem closed_front_matter_round_trip
    (content l0 lc body' : str) (inner rest : list str) :
  split content = l0 :: inner ++ lc :: rest ->
  strip l0 = lit "---" ->
  Forall (fun l => strip l <> lit "---") inner ->
  strip lc = lit "---" ->
  let fm := (extract_frontmatter content).1 in
  extract_frontmatter (fm ++ nl :: body') = (fm, body').
Proof.
  intros Hs H0 Hin Hc fm. subst fm.
  rewrite (extract_frontmatter_closed_lines _ _ _ _ _ Hs H0 Hin Hc).
  cbn [fst].
  assert (Forall (fun l => nl ∉ l) (lit "---" :: inner ++ [lit "---"])) as Hnl.
  { pose proof (split_no_nl content) as Hall. rewrite Hs in Hall.
    inversion Hall as [|? ? _ Hall']; subst.
    apply Forall_app in Hall' as [Hinner _].
    assert (nl ∉ lit "---") as Hd
      by (refine (bool_decide_unpack _ _); vm_compute; exact I).
    constructor; [done|].
    apply Forall_app. split; [done|]. by constructor. }
  rewrite (extract_frontmatter_closed_lines _ (lit "---") inner (lit "---")
             (split body')); [by rewrite join_split|..|done|by vm_compute].
  - rewrite split_join_app by done. cbn [app]. by rewrite <- app_assoc.
  - by vm_compute.
Qed.

Lemma closed_front_matter_round_trip_witness :
  let content :=
    join [lit "--- "; lit "title: Login"; lit "---"; lit "# Login"] in
  (split content
   = lit "--- " :: [lit "title: Login"] ++ lit "---" :: [lit "# Login"]
   /\ strip (lit "--- ") = lit "---"
   /\ Forall (fun l => strip l <> lit "---") [lit "title: Login"]
   /\ strip (lit "---") = lit "---")
  /\ extract_frontmatter
       ((extract_frontmatter content).1 ++ nl :: lit "## Login")
     = ((extract_frontmatter content).1, lit "## Login").
Proof.
  intros content.
  assert (split content
          = lit "--- " :: [lit "title: Login"] ++ lit "---"
              :: [lit "# Login"]) as H1 by (by vm_compute).
  assert (strip (lit "--- ") = lit "---") as H2 by (by vm_compute).
  assert (Forall (fun l => strip l <> lit "---") [lit "title: Login"]) as H3
    by (refine (bool_decide_unpack _ _); vm_compute; exact I).
  assert (strip (lit "---") = lit "---") as H4 by (by vm_compute).
  split; [by split_and!|].
  exact (closed_front_matter_round_trip content _ _ (lit "## Login") _ _
           H1 H2 H3 H4).
Defined.

End ClosedFrontMatter.

(** *** The path mapper in the two scripts *)

Section Mappers.

Lemma startswith_app p s : startswith p (p ++ s) = true.
Proof. induction p as [|c p IH]; simpl; [done|]. by rewrite Ascii.eqb_refl. Qed.

Lemma endswith_app p s : endswith p (s ++ p) = true.
Proof. unfold endswith. rewrite reverse_app. apply startswith_app. Qed.

Lemma en_part_keeps_extension (table : gmap str str) (part : str) :
  map_Forall (fun _ v => endswith (lit ".mdx") v = false) table ->
  endswith (lit ".mdx") (en_part table part) = endswith (lit ".mdx") part.
Proof.
  intros Htable. unfold en_part.
  destruct (table !! remove_mdx part) as [en|] eqn:Hen; [|done].
  destruct (endswith (lit ".mdx") part); [apply endswith_app|].
  by apply (Htable _ _ Hen).
Qed.

Lemma report_table_values :
  map_Forall (fun _ v => endswith (lit ".mdx") v = false)
             SyncTranslations.PATH_MAPPING.
Proof. refine (bool_decide_unpack _ _). vm_compute. exact I. Qed.

Lemma fix_table_values :
  map_Forall (fun _ v => endswith (lit ".mdx") v = false)
             SyncFix.PATH_MAPPING.
Proof. refine (bool_decide_unpack _ _). vm_compute. exact I. Qed.

(** X16. The path mapper of either script keeps the shape of a path:
    the mapped path has as many segments as the given one, and a
    segment ends in [.mdx] after the mapping exactly when it did
    before, so a page is mapped to a page and a folder to a folder. *)
Theorem get_en_path_keeps_shape (p : path) :
  (length (SyncTranslations.get_en_path p) = length p
   /\ map (endswith (lit ".mdx")) (SyncTranslations.get_en_path p)
      = map (endswith (lit ".mdx")) p)
  /\ (length (SyncFix.get_en_path p) = length p
      /\ map (endswith (lit ".mdx")) (SyncFix.get_en_path p)
         = map (endswith (lit ".mdx")) p).
Proof.
  unfold SyncTranslations.get_en_path, SyncFix.get_en_path, get_en_path.
  rewrite !length_map, !map_map. split_and!; [done| |done|].
  - apply map_ext. intros part.
    apply en_part_keeps_extension, report_table_values.
  - apply map_ext. intros part.
    apply en_part_keeps_extension, fix_table_values.
Qed.

Lemma map_eq_Forall {A B} (f g : A -> B) (l : list A) :
  map f l = map g l <-> Forall (fun x => f x = g x) l.
Proof.
  induction l as [|x l IH]; simpl.
  - split; [constructor|done].
  - split.
    + intros [= Hx Hl]. constructor; [done|by apply IH].
    + intros H. inversion H as [|? ? Hx Hl]; subst.
      rewrite Hx. f_equal. by apply IH.
Qed.

Lemma en_part_scripts_agree (part : str) :
  en_part SyncFix.PATH_MAPPING part = en_part SyncTranslations.PATH_MAPPING part
  <-> remove_mdx part <> lit "pengaturan-personal"
      /\ remove_mdx part <> lit "ubah-password".
Proof.
  unfold en_part, SyncFix.PATH_MAPPING. split.
  - intros E. split; intros Hk; rewrite Hk in E.
    + rewrite lookup_insert_eq in E.
      replace (SyncTranslations.PATH_MAPPING !! lit "pengaturan-personal")
        with (@None str) in E by (by vm_compute).
      destruct (endswith (lit ".mdx") part); subst part; by vm_compute in Hk.
    + rewrite lookup_insert_ne in E by (by vm_compute).
      rewrite lookup_insert_eq in E.
      replace (SyncTranslations.PATH_MAPPING !! lit "ubah-password")
        with (@None str) in E by (by vm_compute).
      destruct (endswith (lit ".mdx") part); subst part; by vm_compute in Hk.
  - intros [H1 H2].
    rewrite lookup_insert_ne by (intros E; by apply H1).
    by rewrite lookup_insert_ne by (intros E; by apply H2).
Qed.

(** X17. The two scripts map a path to the same target path exactly
    when none of its segments, with every [.mdx] deleted, is
    [pengaturan-personal] or [ubah-password]: these two names are in
    the table of fix mode only, so report mode looks for such a page
    under its untranslated name. *)
Theorem scripts_map_alike_iff (p : path) :
  SyncFix.get_en_path p = SyncTranslations.get_en_path p
  <-> Forall (fun part => remove_mdx part <> lit "pengaturan-personal"
                          /\ remove_mdx part <> lit "ubah-password") p.
Proof.
  unfold SyncTranslations.get_en_path, SyncFix.get_en_path, get_en_path.
  rewrite map_eq_Forall. apply Forall_iff. intros part.
  apply en_part_scripts_agree.
Qed.

End Mappers.

(** *** Report mode and fix mode on documents of the same shape *)

Section SameShape.

Import SyncTranslations SyncFix.

Lemma classify_cases i l :
  match parse_line l with
  | PHeading level t o => classify i l = EHeading i level t o
  | PNumbered indent number t o => classify i l = ENumbered i indent number t o
  | PBullet indent b t o => classify i l = EBullet i indent b t o
  | POther _ =>
      is_heading (classify i l) = false /\ is_list (classify i l) = false
  end.
Proof.
  unfold parse_line, classify.
  destruct (Re.heading l) as [[? ?]|]; [done|].
  destruct (Re.numbered l) as [[[? ?] ?]|]; [done|].
  destruct (Re.bullet l) as [[[? ?] ?]|]; [done|].
  by repeat case_match.
Qed.

Lemma agree_walk_same_kind (en_lines : list str) :
  forall (id_lines : list str) (i i' : nat),
  Forall (fun l => is_fence l = false) id_lines ->
  Forall (fun l => is_fence l = false) en_lines ->
  map ptype (map parse_line id_lines) = map ptype (map parse_line en_lines) ->
  agree_walk (map parse_line en_lines) (map parse_line id_lines) = true
  <-> map elevel (filter (fun s => is_heading s = true)
                         (analyze_from id_lines i false))
      = map elevel (filter (fun s => is_heading s = true)
                           (analyze_from en_lines i' false))
      /\ map eindent (filter (fun s => is_list s = true)
                             (analyze_from id_lines i false))
         = map eindent (filter (fun s => is_list s = true)
                               (analyze_from en_lines i' false)).
Proof.
  induction en_lines as [|el en_lines IH];
    intros [|il id_lines] i i' Hid Hen Hk; try discriminate; [done|].
  inversion Hid as [|? ? Hil Hid']; subst.
  inversion Hen as [|? ? Hel Hen']; subst.
  cbn [map] in Hk. injection Hk as Hk Hks.
  cbn [map analyze_from agree_walk]. rewrite Hil, Hel, (decide_True _ _ Hk).
  rewrite andb_true_iff, (IH id_lines (S i) (S i') Hid' Hen' Hks).
  pose proof (classify_cases i il) as Ci.
  pose proof (classify_cases i' el) as Ce.
  destruct (parse_line il) as [sl st' so|si sn st' so|si sb st' so|so];
  destruct (parse_line el) as [tl tt to|ti tn tt to|ti tb tt to|to];
    try discriminate; cbn [agree].
  - rewrite Ci, Ce. rewrite !filter_cons_True by done.
    rewrite !filter_cons_False by done. cbn [map elevel].
    rewrite Nat.eqb_eq. split.
    + intros (-> & -> & ->). done.
    + intros ([= -> ->] & ->). done.
  - rewrite Ci, Ce. rewrite !(filter_cons_False (fun s => is_heading s = true))
      by done.
    rewrite !filter_cons_True by done. cbn [map eindent].
    rewrite Nat.eqb_eq. split.
    + intros (-> & -> & ->). done.
    + intros (-> & [= -> ->]). done.
  - rewrite Ci, Ce. rewrite !(filter_cons_False (fun s => is_heading s = true))
      by done.
    rewrite !filter_cons_True by done. cbn [map eindent].
    rewrite Nat.eqb_eq. split.
    + intros (-> & -> & ->). done.
    + intros (-> & [= -> ->]). done.
  - destruct Ci as [Ci1 Ci2], Ce as [Ce1 Ce2].
    rewrite !filter_cons_False
      by (by rewrite ?Ci1, ?Ci2, ?Ce1, ?Ce2).
    split; [by intros [_ ?] | by intros ?].
Qed.

(** X18. For two bodies without fence lines whose lines have, line by
    line, the same kind, the verdicts of the two scripts coincide:
    report mode finds an issue exactly when fix mode finds something
    to change. *)
Theorem report_issue_iff_fix_change
    (rel_path : path) (id_body en_body : str) :
  Forall (fun l => is_fence l = false) (split id_body) ->
  Forall (fun l => is_fence l = false) (split en_body) ->
  map ptype (map parse_line (split id_body))
    = map ptype (map parse_line (split en_body)) ->
  (compare_bodies rel_path id_body en_body).2
  = changes_made (align (map parse_line (split id_body))
                        (map parse_line (split en_body))).
Proof.
  intros Hid Hen Hk.
  destruct (compare_bodies_verdict rel_path id_body en_body) as [Hv _].
  pose proof (agree_walk_same_kind _ _ 0 0 Hid Hen Hk) as Ha.
  rewrite walk_align, walk_changes. cbn [changes_made init orb].
  set (v := (compare_bodies rel_path id_body en_body).2) in *.
  unfold analyze_structure in Hv. rewrite <- Ha in Hv.
  destruct Hv as [H1 H2].
  destruct (agree_walk _ _), v; cbn [negb]; try done.
  - discriminate (H2 eq_refl).
  - discriminate (H1 eq_refl).
Qed.

Lemma report_issue_iff_fix_change_witness :
  let id_body := join [lit "## Judul"; lit "teks"; lit "  - butir"] in
  let en_body := join [lit "## Title"; lit "text"; lit "- item"] in
  (Forall (fun l => is_fence l = false) (split id_body)
   /\ Forall (fun l => is_fence l = false) (split en_body)
   /\ map ptype (map parse_line (split id_body))
      = map ptype (map parse_line (split en_body)))
  /\ (compare_bodies [] id_body en_body).2
     = changes_made (align (map parse_line (split id_body))
                           (map parse_line (split en_body))).
Proof.
  intros id_body en_body.
  assert (Forall (fun l => is_fence l = false) (split id_body)) as H1
    by (refine (bool_decide_unpack _ _); vm_compute; exact I).
  assert (Forall (fun l => is_fence l = false) (split en_body)) as H2
    by (refine (bool_decide_unpack _ _); vm_compute; exact I).
  assert (map ptype (map parse_line (split id_body))
          = map ptype (map parse_line (split en_body))) as H3
    by (by vm_compute).
  split; [by split_and!|].
  exact (report_issue_iff_fix_change [] id_body en_body H1 H2 H3).
Defined.

End SameShape.
